(** * QCFractal task nanny and scheduler: a verification development

    Shallow embedding of [dqm_server/queue_handlers/dask_handler.py]:
    the in-flight bookkeeping of [DaskNanny] ([add_future], [update]) and
    the submission loop of [DaskScheduler.post], with the properties the
    specification states about them.

    Python dictionaries whose iteration order is observed ([self.queue],
    iterated by [update]) are association lists in insertion order with
    pairwise distinct keys; dictionaries that are only indexed
    ([self.errors], result records, task descriptors) are finite maps. *)

From Stdlib Require Import Ascii.
From stdpp Require Import gmap strings list fin_maps pretty.

(** ** Python values and exceptions *)

(** The field values a result record or a task descriptor carries.  An
    object of any other type is [VOther], known by its [str()] and its
    truth value, the only two things the handler asks of it. *)
Inductive value :=
| VNone
| VBool (b : bool)
| VStr (s : string)
| VOther (shown : string) (truth : bool).

(** Python truthiness, as tested by [if not tmp_data["success"]]. *)
Definition truthy (v : value) : bool :=
  match v with
  | VNone => false
  | VBool b => b
  | VStr s => negb (String.eqb s "")
  | VOther _ t => t
  end.

(** [str(v)], as substituted for a [%s] conversion. *)
Definition py_str (v : value) : string :=
  match v with
  | VNone => "None"
  | VBool true => "True"
  | VBool false => "False"
  | VStr s => s
  | VOther shown _ => shown
  end.

Global Instance value_eq_dec : EqDecision value.
Proof. solve_decision. Defined.

(** A Python [dict] with string keys that is only indexed. *)
Abbreviation record := (gmap string value).

(** An instance of [Exception]: [type(e).__name__], [str(e)] and the
    text of ["".join(traceback.format_tb(e.__traceback__))] as the
    handler of [update] sees it. *)
Record exn := Exn { exn_type : string; exn_str : string; exn_tb : string }.

Definition nl : string := String "010"%char EmptyString.

(** ** Futures *)

(** What the nanny observes of a tracked object while the backend state
    does not change: the answer of [future.done()] and of
    [future.result()], which is a dictionary when it returns.  Either
    call may raise; an object that is not a future at all (the integer
    launch id [FireworksScheduler.post] hands to [add_future]) raises
    [AttributeError] on [done]. *)
Record handle := Handle { done : exn + bool; result : exn + record }.

(** ** Collaborators *)

(** Calls that leave the nanny, recorded in program order.  The key on
    [EvResult] and [EvAddPage] is the queue key being processed when the
    call was made. *)
Inductive event :=
| EvResult (key : string)
| EvAddPage (key : string) (page : record)
| EvSubmit (task : record)
| EvLog (line : string).

Class Collaborators := {
  (** the MongoDB socket and its [add_page] *)
  Store : Type;
  add_page : record -> Store -> (exn + bool) * Store;
  (** the Dask client, [compute.computers] and [dask.submit] *)
  Backend : Type;
  Computer : Type;
  computers : gmap string Computer;
  submit : Computer -> record -> Backend -> (exn + handle) * Backend;
  (** [str(uuid.uuid4())] at the n-th draw of the process *)
  uuid4 : nat -> string;
  (** formatted traceback of an exception raised in the frame of
      [update] itself, at the given source line *)
  tb_here : nat -> string
}.

(** How a call ends: with a value or with a raised exception. *)
Inductive res (A : Type) :=
| Ok (a : A)
| Raise (e : exn).
Arguments Ok {A} a.
Arguments Raise {A} e.

Section Nanny.
Context `{Collaborators}.

(** ** Program state *)

Record state := State {
  queue : list (string * handle);   (* self.queue, in insertion order *)
  errors : gmap string string;      (* self.errors *)
  store : Store;                    (* behind self.mongod_socket *)
  backend : Backend;                (* behind self.queue_socket *)
  drawn : nat;                      (* uuid4 draws so far *)
  trace : list event
}.

Definition set_queue (q : list (string * handle)) (s : state) : state :=
  State q (errors s) (store s) (backend s) (drawn s) (trace s).
Definition set_errors (e : gmap string string) (s : state) : state :=
  State (queue s) e (store s) (backend s) (drawn s) (trace s).
Definition set_store (m : Store) (s : state) : state :=
  State (queue s) (errors s) m (backend s) (drawn s) (trace s).
Definition set_backend (b : Backend) (s : state) : state :=
  State (queue s) (errors s) (store s) b (drawn s) (trace s).
Definition set_drawn (n : nat) (s : state) : state :=
  State (queue s) (errors s) (store s) (backend s) n (trace s).
Definition emit (ev : event) (s : state) : state :=
  State (queue s) (errors s) (store s) (backend s) (drawn s) (trace s ++ [ev]).

(** ** Ordered dictionary operations on the queue *)

Fixpoint q_get (k : string) (q : list (string * handle)) : option handle :=
  match q with
  | [] => None
  | (k', h) :: r => if String.eqb k k' then Some h else q_get k r
  end.

(** [q[k] = h]: an existing key keeps its position, a new one goes last. *)
Fixpoint q_set (k : string) (h : handle) (q : list (string * handle))
  : list (string * handle) :=
  match q with
  | [] => [(k, h)]
  | (k', h') :: r =>
      if String.eqb k k' then (k, h) :: r else (k', h') :: q_set k h r
  end.

Fixpoint q_del (k : string) (q : list (string * handle))
  : list (string * handle) :=
  match q with
  | [] => []
  | (k', h') :: r => if String.eqb k k' then r else (k', h') :: q_del k r
  end.

Definition q_keys (q : list (string * handle)) : list string := q.*1.

(** The representation invariant of a dictionary: no key twice. *)
Definition wf (s : state) : Prop := NoDup (q_keys (queue s)).

(** ** A state and exception monad *)

Definition M (A : Type) : Type := state -> res A * state.

Definition ret {A} (a : A) : M A := fun s => (Ok a, s).
Definition raise {A} (e : exn) : M A := fun s => (Raise e, s).
Definition bind {A B} (m : M A) (k : A -> M B) : M B :=
  fun s => match m s with
           | (Ok a, s') => k a s'
           | (Raise e, s') => (Raise e, s')
           end.
(** [try: m except Exception as e: h e] *)
Definition try_except {A} (m : M A) (h : exn -> M A) : M A :=
  fun s => match m s with
           | (Ok a, s') => (Ok a, s')
           | (Raise e, s') => h e s'
           end.
Definition modify (f : state -> state) : M unit := fun s => (Ok tt, f s).
Definition gets {A} (f : state -> A) : M A := fun s => (Ok (f s), s).
(** lift the answer of a collaborator *)
Definition answer {A} (r : exn + A) : M A :=
  match r with inl e => raise e | inr a => ret a end.

Notation "x <- m ;; k" := (bind m (fun x => k))
  (at level 100, m at next level, right associativity).
Notation "m ;;; k" := (bind m (fun _ => k))
  (at level 100, right associativity).

Definition exec {A} (m : M A) (s : state) : state := snd (m s).
Definition outcome {A} (m : M A) (s : state) : res A := fst (m s).

(** ** Primitive steps *)

(** [self.logger.info(line)] *)
Definition log_info (line : string) : M unit := modify (emit (EvLog line)).

(** [d[k]] on a record: [KeyError] when absent; [str(KeyError(k))] is
    the [repr] of the key. *)
Definition key_error (k : string) (line : nat) : exn :=
  Exn "KeyError" ("'" +:+ k +:+ "'") (tb_here line).

Definition getitem (d : record) (k : string) (line : nat) : M value :=
  match d !! k with
  | Some v => ret v
  | None => raise (key_error k line)
  end.

(** [future.done()] *)
Definition call_done (future : handle) : M bool := answer (done future).

(** [future.result()] *)
Definition call_result (key : string) (future : handle) : M record :=
  modify (emit (EvResult key)) ;;; answer (result future).

(** [self.mongod_socket.add_page(tmp_data)] *)
Definition call_add_page (key : string) (tmp_data : record) : M bool :=
  fun s =>
    let '(r, m) := add_page tmp_data (store s) in
    answer r (emit (EvAddPage key tmp_data) (set_store m s)).

(** [del self.queue[key]] *)
Definition del_queue (key : string) : M unit :=
  fun s =>
    match q_get key (queue s) with
    | Some _ => (Ok tt, set_queue (q_del key (queue s)) s)
    | None => (Raise (key_error key 48), s)
    end.

(** ** DaskNanny.add_future *)

Definition add_future (future : handle) : M string :=
  uid <- (fun s => (Ok (uuid4 (drawn s)), set_drawn (S (drawn s)) s)) ;;
  modify (fun s => set_queue (q_set uid future (queue s)) s) ;;;
  log_info ("MONGO ADD: FUTURE " +:+ uid) ;;;
  ret uid.

(** ** DaskNanny.update *)

(** The message of the [ValueError] raised at line 32. *)
Definition failure_text (molecule_hash modelchem error : value) : string :=
  "Computation (" +:+ py_str molecule_hash +:+ ", " +:+ py_str modelchem
  +:+ ") did not complete successfully!:" +:+ nl +:+ py_str error +:+ nl.

(** Lines 30 to 37, the body of the [try]. *)
Definition update_try (key : string) (future : handle) : M unit :=
  tmp_data <- call_result key future ;;
  success <- getitem tmp_data "success" 31 ;;
  (if negb (truthy success) then
     molecule_hash <- getitem tmp_data "molecule_hash" 33 ;;
     modelchem <- getitem tmp_data "modelchem" 33 ;;
     error <- getitem tmp_data "error" 33 ;;
     raise (Exn "ValueError" (failure_text molecule_hash modelchem error)
                (tb_here 32))
   else ret tt) ;;;
  res <- call_add_page key tmp_data ;;
  molecule_hash <- getitem tmp_data "molecule_hash" 36 ;;
  modelchem <- getitem tmp_data "modelchem" 36 ;;
  log_info ("MONGO ADD: (" +:+ py_str molecule_hash +:+ ", "
            +:+ py_str modelchem +:+ ") - " +:+ py_str (VBool res)).

(** Lines 39 to 41: the diagnostic built from a caught exception. *)
Definition error_message (e : exn) : string :=
  exn_tb e +:+ exn_type e +:+ ":" +:+ exn_str e.

(** Lines 39 to 43, the [except Exception as e] clause. *)
Definition update_except (key : string) (e : exn) : M unit :=
  let msg := error_message e in
  modify (fun s => set_errors (<[key := msg]> (errors s)) s) ;;;
  log_info ("MONGO ADD: ERROR" +:+ nl +:+ msg).

(** Lines 29 to 43: what is done for one finished entry. *)
Definition update_entry (key : string) (future : handle) : M unit :=
  try_except (update_try key future) (update_except key).

(** Lines 27 to 45, over the items of [self.queue]. *)
Fixpoint update_loop (items : list (string * handle)) (del_keys : list string)
  : M (list string) :=
  match items with
  | [] => ret del_keys
  | (key, future) :: rest =>
      finished <- call_done future ;;
      if finished then
        update_entry key future ;;;
        update_loop rest (del_keys ++ [key])
      else update_loop rest del_keys
  end.

(** Lines 47 and 48. *)
Fixpoint update_delete (del_keys : list string) : M unit :=
  match del_keys with
  | [] => ret tt
  | key :: rest => del_queue key ;;; update_delete rest
  end.

Definition update : M unit :=
  items <- gets queue ;;
  del_keys <- update_loop items [] ;;
  update_delete del_keys.

(** ** DaskScheduler.post, lines 77 to 90 *)

(** The dictionary [ret] the handler serialises. *)
Record response := Response {
  r_error : list value;      (* ret["error"] *)
  r_nanny_id : list string;  (* ret["Nanny ID"] *)
  r_success : bool           (* ret["success"] *)
}.

(** [compute.computers[program]] *)
Definition get_computer (program : string) : M Computer :=
  match computers !! program with
  | Some c => ret c
  | None => raise (key_error program 85)
  end.

(** [dask.submit(computer, task)] *)
Definition call_submit (c : Computer) (task : record) : M handle :=
  fun s =>
    let '(r, b) := submit c task (backend s) in
    answer r (emit (EvSubmit task) (set_backend b s)).

(** Lines 81 to 86; [err] and [ids] are [ret["error"]] and
    [ret["Nanny ID"]]. *)
Fixpoint post_loop (program : string) (tasks : list record)
    (err : list value) (ids : list string) : M (list value * list string) :=
  match tasks with
  | [] => ret (err, ids)
  | task :: rest =>
      match task !! "internal_error" with
      | Some msg => post_loop program rest (err ++ [msg]) ids
      | None =>
          c <- get_computer program ;;
          fut <- call_submit c task ;;
          uid <- add_future fut ;;
          post_loop program rest err (ids ++ [uid])
      end
  end.

(** [post] from the result [(tasks, program)] of [_unpack_tasks] on:
    decoding, the credential check and the project selection of lines 65
    to 75 come before and are not part of this development. *)
Definition post (tasks : list record) (program : string) : M response :=
  lists <- post_loop program tasks [] [] ;;
  ret (Response (fst lists) (snd lists) true).

(** [DaskScheduler.get], lines 98 to 101: the queue keys and the error
    dictionary, read without a reconciliation pass. *)
Definition get : M (list string * gmap string string) :=
  s <- gets id ;;
  ret (q_keys (queue s), errors s).

(** ** Observations on a run *)

(** How often [future.result()] was called for the entry under [k]. *)
Fixpoint retrievals (k : string) (evs : list event) : nat :=
  match evs with
  | [] => 0
  | EvResult k' :: r =>
      (if String.eqb k k' then 1 else 0) + retrievals k r
  | _ :: r => retrievals k r
  end.

(** The pages handed to [add_page] for the entry under [k], in order. *)
Fixpoint posted (k : string) (evs : list event) : list record :=
  match evs with
  | [] => []
  | EvAddPage k' p :: r =>
      if String.eqb k k' then p :: posted k r else posted k r
  | _ :: r => posted k r
  end.

(** The tasks handed to [dask.submit], in order. *)
Fixpoint submitted (evs : list event) : list record :=
  match evs with
  | [] => []
  | EvSubmit t :: r => t :: submitted r
  | _ :: r => submitted r
  end.

(** All that a run shows about the entry under [k] outside the queue:
    its diagnostic, the retrievals of its outcome, its pages. *)
Definition view (k : string) (s : state)
  : option string * nat * list record :=
  (errors s !! k, retrievals k (trace s), posted k (trace s)).

(** [future.done()] returns, with either answer. *)
Definition done_returns (h : handle) : Prop :=
  match done h with inr _ => True | inl _ => False end.

(** Every tracked object answers the finished-check. *)
Definition pollable (s : state) : Prop :=
  Forall (fun kh => done_returns kh.2) (queue s).

(** The keys of the finished entries, in iteration order. *)
Fixpoint finished_keys (items : list (string * handle)) : list string :=
  match items with
  | [] => []
  | (k, h) :: r =>
      match done h with
      | inr true => k :: finished_keys r
      | _ => finished_keys r
      end
  end.

(** ** Outcomes *)

(** The record says [success], as [if not tmp_data["success"]] reads it. *)
Definition reports_success (page : record) : bool :=
  match page !! "success" with
  | Some v => truthy v
  | None => false
  end.


(** A finished computation that failed, with the diagnostic [update]
    files for it: either the record says so and carries the backend's
    message under ["error"], or [result()] raises. *)
Inductive fails_with (h : handle) : string -> string -> Prop :=
| fails_record page v a b c :
    result h = inr page ->
    page !! "success" = Some v -> truthy v = false ->
    page !! "molecule_hash" = Some a ->
    page !! "modelchem" = Some b ->
    page !! "error" = Some c ->
    fails_with h (py_str c)
      (error_message (Exn "ValueError" (failure_text a b c) (tb_here 32)))
| fails_raise e :
    result h = inl e ->
    fails_with h (exn_str e) (error_message e).

(** [future.done()] answers [True]. *)
Definition is_finished (h : handle) : bool :=
  match done h with inr true => true | _ => false end.

(** The entries a completed pass leaves in the queue. *)
Definition pending (q : list (string * handle)) : list (string * handle) :=
  filter (fun kh => is_finished kh.2 = false) q.

(** A property of the store that no [add_page] call breaks. *)
Definition store_invariant (P : Store -> Prop) : Prop :=
  forall page m, P m -> P (add_page page m).2.

(** ** Observations on a submission *)

(** The messages of the error markers of a batch, in order. *)
Definition error_markers (tasks : list record) : list value :=
  omap (fun task => task !! "internal_error") tasks.

(** The items of a batch that are task descriptors, in order. *)
Definition task_specs (tasks : list record) : list record :=
  filter (fun task => task !! "internal_error" = None) tasks.

(** What the backend answers along a batch, from the state [b] on: the
    futures of the descriptors it took, and the exception of the first
    one it did not take, if any. *)
Fixpoint submit_run (c : Computer) (tasks : list record) (b : Backend)
  : list handle * option exn :=
  match tasks with
  | [] => ([], None)
  | task :: rest =>
      match task !! "internal_error" with
      | Some _ => submit_run c rest b
      | None =>
          match submit c task b with
          | (inl e, _) => ([], Some e)
          | (inr fut, b') =>
              (fut :: (submit_run c rest b').1, (submit_run c rest b').2)
          end
      end
  end.

(** The state [add_future] leaves: the draw counted, the object stored
    under the identifier drawn, the registration logged. *)
Definition tracked (future : handle) (s : state) : state :=
  emit (EvLog ("MONGO ADD: FUTURE " +:+ uuid4 (drawn s)))
    (set_queue (q_set (uuid4 (drawn s)) future (queue s))
       (set_drawn (S (drawn s)) s)).

(** The identifiers minted by [n] draws from the state [s] on. *)
Definition minted (s : state) (n : nat) : list string :=
  uuid4 <$> seq (drawn s) n.


(** A substring. *)
Definition contains (m s : string) : Prop :=
  exists pre post, s = pre +:+ m +:+ post.

(** ** The specification's sentences, read to the letter *)


(** A failure outcome with message [m]: after the pass, a poll shows
    the key out of the queue and in the errors with exactly [m]. *)
Definition failure_files_exactly (s : state) (k : string) : Prop :=
  forall h m filed,
    q_get k (queue s) = Some h -> done h = inr true -> fails_with h m filed ->
    exists keys errs,
      outcome get (exec update s) = Ok (keys, errs) /\
      (k ∉ keys) /\ errs !! k = Some m.


(** Two passes in succession: the second removes nothing and files
    nothing, and each finished entry's outcome was retrieved once. *)
Definition consumed_once (s : state) : Prop :=
  let s1 := exec update s in
  let s2 := exec update s1 in
  queue s2 = queue s1 /\ errors s2 = errors s1 /\
  forall k h,
    q_get k (queue s) = Some h -> done h = inr true ->
    retrievals k (trace s2) = retrievals k (trace s) + 1.

(** A descriptor the backend does not take is reported in the response,
    in the error list, like a marker. *)
Definition submit_failure_is_reported (s : state) (tasks : list record)
    (program : string) : Prop :=
  forall c futs e,
    computers !! program = Some c ->
    submit_run c tasks (backend s) = (futs, Some e) ->
    exists resp,
      outcome (post tasks program) s = Ok resp /\
      length (r_error resp) = S (length (error_markers tasks)).

(** ** Failures, pages and identifiers *)

(** The page [update] hands to the store for an object it finds
    finished: the record [result()] returns, when it reports success. *)
Definition handed (h : handle) : list record :=
  match result h with
  | inr page => if reports_success page then [page] else []
  | inl _ => []
  end.

(** The first identity field a record lacks, in the order line 33 reads
    them. *)
Definition first_missing (page : record) : option string :=
  match page !! "molecule_hash" with
  | None => Some "molecule_hash"
  | Some _ =>
      match page !! "modelchem" with
      | None => Some "modelchem"
      | Some _ => None
      end
  end.

(** A finished computation that failed with the message [m], and the
    diagnostic [update] files for it: as [fails_with] when the failure
    can be described, and when the record that says so under ["error"]
    lacks an identity field, the [KeyError] line 33 raises for the
    first one missing. *)
Inductive failure_files (h : handle) : string -> string -> Prop :=
| failure_described m filed :
    fails_with h m filed -> failure_files h m filed
| failure_unidentified page v c field :
    result h = inr page ->
    page !! "success" = Some v -> truthy v = false ->
    page !! "error" = Some c ->
    first_missing page = Some field ->
    failure_files h (py_str c) (error_message (key_error field 33)).

(** C4 read to the letter: when a finished entry fails, every other
    finished entry of the pass is out of the queue afterwards. *)
Definition failure_is_confined (s : state) : Prop :=
  forall k h m filed,
    q_get k (queue s) = Some h -> done h = inr true -> fails_with h m filed ->
    forall k' h',
      k' ≠ k -> q_get k' (queue s) = Some h' -> done h' = inr true ->
      q_get k' (queue (exec update s)) = None.


End Nanny.

(** * The rest of the handler *)

Section Lifecycle.
Context `{Collaborators}.

Notation "x <- m ;; k" := (bind m (fun x => k))
  (at level 100, m at next level, right associativity).

(** ** DaskNanny.__init__ *)

(** An empty queue and no errors around the two sockets, in a process
    that has drawn [n] identifiers and made the calls [evs] so far. *)
Definition __init__ (queue_socket : Backend) (mongod_socket : Store)
    (n : nat) (evs : list event) : state :=
  State [] ∅ mongod_socket queue_socket n evs.

(** ** FireworksScheduler.post, lines 133 to 150 *)

(** [lpad.add_wf(fw)] for the one-task workflow built from a descriptor:
    the launchpad answers with the dictionary from the identifiers of
    the workflow's fireworks to the ones it assigned, in order. *)
Variable add_wf : record -> Backend -> (exn + list (Z * Z)) * Backend.

Definition call_add_wf (task : record) : M (list (Z * Z)) :=
  fun s =>
    let '(r, b) := add_wf task (backend s) in
    answer r (emit (EvSubmit task) (set_backend b s)).

(** What the nanny observes of an integer it was handed as a future:
    it has neither [done] nor [result]. *)
Definition launch_object (fws_id : Z) : handle :=
  Handle (inl (Exn "AttributeError" "'int' object has no attribute 'done'"
                   (tb_here 28)))
         (inl (Exn "AttributeError" "'int' object has no attribute 'result'"
                   (tb_here 30))).

(** [list(launches.values())[0]] *)
Definition first_value (launches : list (Z * Z)) : M Z :=
  match launches.*2 with
  | [] => raise (Exn "IndexError" "list index out of range" (tb_here 144))
  | fws_id :: _ => ret fws_id
  end.

(** Lines 137 to 146. *)
Fixpoint FireworksScheduler_post_loop (tasks : list record)
    (err : list value) (ids : list string) : M (list value * list string) :=
  match tasks with
  | [] => ret (err, ids)
  | task :: rest =>
      match task !! "internal_error" with
      | Some msg => FireworksScheduler_post_loop rest (err ++ [msg]) ids
      | None =>
          launches <- call_add_wf task ;;
          fws_id <- first_value launches ;;
          uid <- add_future (launch_object fws_id) ;;
          FireworksScheduler_post_loop rest err (ids ++ [uid])
      end
  end.

(** As [post], from the result of [_unpack_tasks] on; the program it
    names is not used, the function to run being fixed. *)
Definition FireworksScheduler_post (tasks : list record) : M response :=
  lists <- FireworksScheduler_post_loop tasks [] [] ;;
  ret (Response (fst lists) (snd lists) true).

(** ** The life of a nanny *)

(** The states a nanny goes through: created by [__init__], then any
    sequence of registrations, passes, submissions and polls, while the
    world moves on between the calls: the tracked objects change their
    answers, the store and the backend change, other code draws
    identifiers. *)
Inductive reached : state -> Prop :=
| reach_init queue_socket mongod_socket n evs :
    reached (__init__ queue_socket mongod_socket n evs)
| reach_add_future s future :
    reached s -> reached (exec (add_future future) s)
| reach_update s :
    reached s -> reached (exec update s)
| reach_post s tasks program :
    reached s -> reached (exec (post tasks program) s)
| reach_fireworks_post s tasks :
    reached s -> reached (exec (FireworksScheduler_post tasks) s)
| reach_get s :
    reached s -> reached (exec get s)
| reach_world s q m b n :
    reached s -> q.*1 = (queue s).*1 -> drawn s <= n ->
    reached (State q (errors s) m b n (trace s)).

(** Every key of the queue is an identifier drawn earlier. *)
Definition keys_drawn (s : state) : Prop :=
  forall k, k ∈ q_keys (queue s) -> exists i, i < drawn s /\ k = uuid4 i.

(** ** More observations *)

(** All pages handed to [add_page], in order. *)
Fixpoint all_posted (evs : list event) : list record :=
  match evs with
  | [] => []
  | EvAddPage _ p :: r => p :: all_posted r
  | _ :: r => all_posted r
  end.

(** The pages a pass owes the store for one entry. *)
Definition due (kh : string * handle) : list record :=
  if is_finished kh.2 then handed kh.2 else [].

(** The queue holds a launch identifier. *)
Definition holds_launch (s : state) : Prop :=
  exists k fws_id, (k, launch_object fws_id) ∈ queue s.

(** [n] passes in succession. *)
Definition passes (n : nat) (s : state) : state :=
  Nat.iter n (exec update) s.

End Lifecycle.

(** ** A concrete deployment, for running the model *)

Module Demo.

(** A store that is reachable or not and keeps the pages it accepted; a
    page it already holds is rejected. *)
Record mongo := Mongo { reachable : bool; pages : list record }.

Definition refused : exn :=
  Exn "ServerSelectionTimeoutError" "localhost:27017: Connection refused"
      "  File mongo_helper.py, in add_page".

Definition mongo_add_page (page : record) (m : mongo)
  : (exn + bool) * mongo :=
  if reachable m then
    if bool_decide (page ∈ pages m) then (inr false, m)
    else (inr true, Mongo true (pages m ++ [page]))
  else (inl refused, m).

(** A client with a number of submissions left before its connection to
    the scheduler closes; a computer maps a task to the future it will
    be seen as. *)
Definition closed : exn :=
  Exn "OSError" "scheduler connection closed" "  File client.py, in submit".

Definition dask_submit (c : record -> handle) (task : record) (left : nat)
  : (exn + handle) * nat :=
  match left with
  | 0 => (inl closed, 0)
  | S n => (inr (c task), n)
  end.

(** A future still running; its result is never asked for. *)
Definition running : handle :=
  Handle (inr false) (inl (Exn "TimeoutError" "" "")).

Definition demo_uuid (n : nat) : string := "id" +:+ pretty n.

#[export] Instance deployment : Collaborators := {|
  Store := mongo;
  add_page := mongo_add_page;
  Backend := nat;
  Computer := record -> handle;
  computers := {[ "psi4" := fun _ : record => running ]};
  submit := dask_submit;
  uuid4 := demo_uuid;
  tb_here := fun line => "  File dask_handler.py, line " +:+ pretty line +:+ nl
|}.

Definition page (success : bool) (error : string) : record :=
  {[ "success" := VBool success; "molecule_hash" := VStr "a1b2";
     "modelchem" := VStr "SCF/sto-3g"; "error" := VStr error ]}.

Definition finished (r : exn + record) : handle := Handle (inr true) r.

(** What the nanny sees of the integer launch id of the Fireworks
    scheduler. *)
Definition launch_id : handle :=
  Handle (inl (Exn "AttributeError" "'int' object has no attribute 'done'"
                   "  File dask_handler.py, line 28"))
         (inl (Exn "AttributeError" "'int' object has no attribute 'result'"
                   "  File dask_handler.py, line 30")).

Definition start (q : list (string * handle)) (m : mongo) : state :=
  State q ∅ m 3 0 [].

(** The states and batches the examples run on. *)
Definition succeeded : handle := finished (inr (page true "")).
Definition diverged : handle := finished (inr (page false "solver diverged")).

Definition s_diverged : state := start [("k1", diverged)] (Mongo true []).
Definition s_launch : state :=
  start [("k1", diverged); ("k2", launch_id)] (Mongo true []).
Definition s_mixed : state :=
  start [("k1", succeeded); ("k2", running); ("k3", diverged)] (Mongo true []).

Definition spec (ref : string) : record :=
  {[ "molecule_hash" := VStr ref; "modelchem" := VStr "methodA" ]}.
Definition marker (reason : string) : record :=
  {[ "internal_error" := VStr reason ]}.
Definition batch3 : list record :=
  [spec "ref1"; marker "unknown reference: bad-ref"; spec "ref3"].

(** One submission left. *)
Definition s_closing : state := State [] ∅ (Mongo true []) 1 0 [].

Definition s_empty : state := start [] (Mongo true []).
Definition psi4 : record -> handle := fun _ => running.


(** A finished failure in front of a finished success and a launch
    identifier. *)
Definition s_three : state :=
  start [("k1", diverged); ("k2", succeeded); ("k3", launch_id)]
    (Mongo true []).

(** A failure record that carries the message and nothing else. *)
Definition bare : handle :=
  finished (inr {[ "success" := VBool false;
                   "error" := VStr "solver diverged" ]}).
Definition s_bare : state := start [("k1", bare)] (Mongo true []).


(** A launchpad with a number of workflows left to accept; it numbers
    the firework it was given 7. *)
Definition demo_add_wf (task : record) (left : nat)
  : (exn + list (Z * Z)) * nat :=
  match left with
  | 0 => (inl closed, 0)
  | S n => (inr [((-1)%Z, 7%Z)], n)
  end.

(** A finished success in front of a launch identifier. *)
Definition s_stuck : state :=
  start [("k1", succeeded); ("k2", launch_id)] (Mongo true []).

(** A nanny just created, and one that took [batch3] and made a pass. *)
Definition s_new : state := __init__ 3 (Mongo true []) 0 [].
Definition s_later : state := exec update (exec (post batch3 "psi4") s_new).

End Demo.

(** * Properties *)

Section Facts.
Context `{Collaborators}.

Implicit Types (k key : string) (h future : handle) (s : state).
Implicit Types (q items : list (string * handle)) (evs : list event).

(** ** The queue as a dictionary *)

Lemma filter_all {A} (P : A -> Prop) `{!forall x, Decision (P x)} (l : list A) :
  Forall P l -> filter P l = l.
Proof.
  induction 1 as [|x l Hx _ IH]; [done|].
  by rewrite filter_cons_True, IH.
Qed.

Lemma q_get_None k q : q_get k q = None <-> k ∉ q.*1.
Proof.
  induction q as [|[k' h'] q IH]; simpl.
  - split; [intros _; apply not_elem_of_nil | done].
  - destruct (String.eqb_spec k k') as [->|Hne].
    + split; [done | intros Hn; exfalso; apply Hn; left].
    + rewrite IH, not_elem_of_cons. tauto.
Qed.

Lemma q_get_elem k h q : NoDup q.*1 -> q_get k q = Some h <-> (k, h) ∈ q.
Proof.
  induction q as [|[k' h'] q IH]; simpl; intros Hnd.
  - split; [done | intros Hin; inversion Hin].
  - apply NoDup_cons in Hnd as [Hk' Hnd].
    destruct (String.eqb_spec k k') as [->|Hne].
    + split.
      * intros [= ->]. left.
      * intros [[= ->]|Hin]%elem_of_cons; [done|].
        exfalso. apply Hk'. apply (list_elem_of_fmap_2 fst) in Hin. done.
    + rewrite IH by done. rewrite elem_of_cons. split; [tauto|].
      intros [[= -> ->]|Hin]; [done | done].
Qed.

Lemma q_get_is_Some k q : k ∈ q.*1 -> exists h, q_get k q = Some h.
Proof.
  intros Hin. destruct (q_get k q) as [h|] eqn:E; [eauto|].
  apply q_get_None in E. done.
Qed.

Lemma q_del_filter k q :
  NoDup q.*1 -> q_del k q = filter (fun kh => kh.1 ≠ k) q.
Proof.
  induction q as [|[k' h'] q IH]; simpl; intros Hnd; [done|].
  apply NoDup_cons in Hnd as [Hk' Hnd].
  destruct (String.eqb_spec k k') as [->|Hne].
  - rewrite filter_cons_False by (simpl; tauto).
    symmetry. apply filter_all. apply Forall_forall.
    intros [k2 h2] Hin Heq. simpl in Heq. subst k2. apply Hk'.
    apply (list_elem_of_fmap_2 fst) in Hin. done.
  - rewrite filter_cons_True by (simpl; congruence). by rewrite IH.
Qed.



Lemma q_set_fresh k h q : k ∉ q.*1 -> q_set k h q = q ++ [(k, h)].
Proof.
  induction q as [|[k2 h2] q IH]; simpl; intros Hn; [done|].
  apply not_elem_of_cons in Hn as [Hne Hn].
  destruct (String.eqb_spec k k2); [done|]. by rewrite IH.
Qed.

(** ** Reading the trace *)

Lemma retrievals_app k evs1 evs2 :
  retrievals k (evs1 ++ evs2) = retrievals k evs1 + retrievals k evs2.
Proof.
  induction evs1 as [|[] evs1 IH]; simpl; rewrite ?IH; lia.
Qed.

Lemma posted_app k evs1 evs2 :
  posted k (evs1 ++ evs2) = posted k evs1 ++ posted k evs2.
Proof.
  induction evs1 as [|[] evs1 IH]; simpl; rewrite ?IH; try done.
  by destruct (String.eqb k key).
Qed.

Lemma submitted_app evs1 evs2 :
  submitted (evs1 ++ evs2) = submitted evs1 ++ submitted evs2.
Proof.
  induction evs1 as [|[] evs1 IH]; simpl; rewrite ?IH; done.
Qed.

Lemma eqb_ne k k' : k ≠ k' -> String.eqb k' k = false.
Proof. intros Hne. destruct (String.eqb_spec k' k); congruence. Qed.

(** ** One finished entry *)

Ltac run :=
  unfold update_entry, try_except, update_try, update_except, call_result,
    call_add_page, getitem, log_info, exec, outcome, bind, modify, answer,
    ret, raise in *; simpl in *.

Ltac step :=
  match goal with
  | |- context [match result ?h with _ => _ end] => destruct (result h) eqn:?
  | |- context [match ?d !! ?k with _ => _ end] => destruct (d !! k) eqn:?
  | |- context [negb (truthy ?v)] => destruct (truthy v) eqn:?
  | |- context [add_page ?p ?m] => destruct (add_page p m) as [[?|?] ?] eqn:?
  end; simpl.

Ltac cases := repeat step.

(** The [try] with its [except Exception] lets nothing out. *)
Lemma entry_total k h s : outcome (update_entry k h) s = Ok tt.
Proof. run. cases; done. Qed.

Lemma entry_run k h s :
  update_entry k h s = (Ok tt, exec (update_entry k h) s).
Proof.
  pose proof (entry_total k h s) as Ho. unfold outcome, exec in *.
  destruct (update_entry k h s) as [r s']; simpl in *. by subst.
Qed.

(** It leaves the queue, the backend and the identifier source alone. *)
Lemma entry_frame k h s :
  queue (exec (update_entry k h) s) = queue s /\
  backend (exec (update_entry k h) s) = backend s /\
  drawn (exec (update_entry k h) s) = drawn s.
Proof. run. cases; done. Qed.

(** And everything filed, retrieved or posted is under its own key. *)
Lemma entry_view_ne k k' h s :
  k ≠ k' -> view k' (exec (update_entry k h) s) = view k' s.
Proof.
  intros Hne. unfold view. run.
  cases; simpl;
    rewrite ?lookup_insert_ne by done;
    rewrite ?retrievals_app, ?posted_app; simpl;
    rewrite ?(eqb_ne _ _ Hne); simpl;
    rewrite ?app_nil_r, ?Nat.add_0_r; done.
Qed.

Ltac tidy :=
  unfold view; simpl;
  rewrite ?lookup_insert_eq, ?retrievals_app, ?posted_app; simpl;
  rewrite ?String.eqb_refl; simpl;
  rewrite ?app_nil_r, ?Nat.add_0_r, <- ?app_assoc; simpl; try done.



(** A record without the ["success"] key: [KeyError], filed. *)
Lemma entry_no_success_key k h s page :
  result h = inr page -> page !! "success" = None ->
  view k (exec (update_entry k h) s)
  = (Some (error_message (key_error "success" 31)),
     retrievals k (trace s) + 1, posted k (trace s)).
Proof.
  intros Hr Hv. run. rewrite Hr; simpl. rewrite Hv; simpl. tidy.
Qed.


(** A failed computation: one retrieval, no page, its diagnostic
    filed. *)
Lemma entry_failed k h s m filed :
  fails_with h m filed ->
  view k (exec (update_entry k h) s)
  = (Some filed, retrievals k (trace s) + 1, posted k (trace s)).
Proof.
  intros [page v a b c Hr Hv Ht Ha Hb Hc | e Hr]; run; rewrite Hr; simpl.
  - rewrite Hv; simpl. rewrite Ht; simpl. rewrite Ha, Hb, Hc; simpl. tidy.
  - tidy.
Qed.

(** A failed record without an identity field: the [KeyError] of line
    33 is filed in place of the failure. *)
Lemma entry_failed_unidentified k h s page v field :
  result h = inr page ->
  page !! "success" = Some v -> truthy v = false ->
  first_missing page = Some field ->
  view k (exec (update_entry k h) s)
  = (Some (error_message (key_error field 33)),
     retrievals k (trace s) + 1, posted k (trace s)).
Proof.
  intros Hr Hv Ht Hf. unfold first_missing in Hf.
  destruct (page !! "molecule_hash") as [a|] eqn:Ha.
  - destruct (page !! "modelchem") as [b|] eqn:Hb; [done|].
    injection Hf as <-.
    run. rewrite Hr; simpl. rewrite Hv; simpl. rewrite Ht; simpl.
    rewrite Ha, Hb; simpl. tidy.
  - injection Hf as <-.
    run. rewrite Hr; simpl. rewrite Hv; simpl. rewrite Ht; simpl.
    rewrite Ha; simpl. tidy.
Qed.

Lemma entry_failure_files k h s m filed :
  failure_files h m filed ->
  view k (exec (update_entry k h) s)
  = (Some filed, retrievals k (trace s) + 1, posted k (trace s)).
Proof.
  intros [m' filed' Hfail | page v c field Hr Hv Ht _ Hf].
  - by eapply entry_failed.
  - by eapply entry_failed_unidentified.
Qed.

(** For a finished entry the store is called under its key when, and
    only when, the record reports success. *)
Lemma entry_posts k h s :
  posted k (trace (exec (update_entry k h) s))
  = posted k (trace s) ++ handed h.
Proof.
  unfold handed, reports_success. run.
  cases; rewrite ?posted_app; simpl; rewrite ?String.eqb_refl; simpl;
    rewrite ?app_nil_r, <- ?app_assoc; done.
Qed.

(** ** The loop over the queue *)

Lemma loop_cons k h items dk s :
  update_loop ((k, h) :: items) dk s
  = match done h with
    | inl e => (Raise e, s)
    | inr true => update_loop items (dk ++ [k]) (exec (update_entry k h) s)
    | inr false => update_loop items dk s
    end.
Proof.
  simpl. unfold bind at 1. unfold call_done, answer.
  destruct (done h) as [e|[]]; simpl; [done| |done].
  unfold bind. rewrite entry_run. done.
Qed.

(** The loop never touches the queue it iterates. *)
Lemma loop_frame items : forall dk s r s',
  update_loop items dk s = (r, s') ->
  queue s' = queue s /\ backend s' = backend s /\ drawn s' = drawn s.
Proof.
  induction items as [|[k h] items IH]; intros dk s r s' Hrun.
  - by injection Hrun as <- <-.
  - rewrite loop_cons in Hrun. destruct (done h) as [e|[]].
    + by injection Hrun as <- <-.
    + apply IH in Hrun as (-> & -> & ->). apply entry_frame.
    + by apply IH in Hrun.
Qed.

(** Nothing is filed, retrieved or posted under a key that is not the
    key of a finished entry. *)
Lemma loop_view_other k items : forall dk s r s',
  update_loop items dk s = (r, s') ->
  k ∉ finished_keys items -> view k s' = view k s.
Proof.
  induction items as [|[k0 h0] items IH]; intros dk s r s' Hrun Hk.
  - by injection Hrun as <- <-.
  - rewrite loop_cons in Hrun. simpl in Hk. destruct (done h0) as [e|[]].
    + by injection Hrun as <- <-.
    + apply not_elem_of_cons in Hk as [Hne Hk].
      rewrite (IH _ _ _ _ Hrun Hk). by apply entry_view_ne.
    + by apply (IH _ _ _ _ Hrun).
Qed.

(** When every finished-check answers, the loop returns the keys of the
    finished entries. *)
Lemma loop_returns items : forall dk s,
  Forall (fun kh => done_returns kh.2) items ->
  exists s', update_loop items dk s = (Ok (dk ++ finished_keys items), s').
Proof.
  induction items as [|[k h] items IH]; intros dk s Hall.
  - exists s. simpl. by rewrite app_nil_r.
  - apply Forall_cons in Hall as [Hh Hall]. rewrite loop_cons. simpl.
    unfold done_returns in Hh. simpl in Hh. destruct (done h) as [e|[]]; [done | |].
    + destruct (IH (dk ++ [k]) (exec (update_entry k h) s) Hall) as [s' Hs'].
      exists s'. by rewrite Hs', <- app_assoc.
    + by apply IH.
Qed.

(** When a finished-check raises, the loop stops there with that
    exception. *)
Lemma loop_raises before k h after e : forall dk s,
  Forall (fun kh => done_returns kh.2) before -> done h = inl e ->
  exists s', update_loop (before ++ (k, h) :: after) dk s = (Raise e, s').
Proof.
  induction before as [|[k0 h0] before IH]; intros dk s Hall He.
  - exists s. simpl app. by rewrite loop_cons, He.
  - apply Forall_cons in Hall as [Hh Hall]. simpl app. rewrite loop_cons.
    unfold done_returns in Hh. simpl in Hh.
    destruct (done h0) as [e0|[]]; [done | |]; by apply IH.
Qed.

(** Either every finished-check answers, or there is a first one that
    raises. *)
Lemma first_raise items :
  Forall (fun kh => done_returns kh.2) items \/
  exists before k h after e,
    items = before ++ (k, h) :: after /\
    Forall (fun kh => done_returns kh.2) before /\ done h = inl e.
Proof.
  induction items as [|[k h] items IH]; [by left|].
  destruct (done h) as [e|b] eqn:Hd.
  - right. exists [], k, h, items, e. by repeat split.
  - destruct IH as [Hall | (before & k' & h' & after & e & -> & Hall & He)].
    + left. constructor; [|done]. unfold done_returns. simpl. by rewrite Hd.
    + right. exists ((k, h) :: before), k', h', after, e.
      repeat split; [|done]. constructor; [|done].
      unfold done_returns. simpl. by rewrite Hd.
Qed.

(** ** The keys to delete *)

Lemma finished_keys_elem k items :
  k ∈ finished_keys items <->
  exists h, (k, h) ∈ items /\ done h = inr true.
Proof.
  induction items as [|[k0 h0] items IH]; simpl.
  - split; [intros Hin; inversion Hin | intros (h & Hin & _); inversion Hin].
  - destruct (done h0) as [e|[]] eqn:Hd.
    + rewrite IH. split; intros (h & Hin & Hh); exists h; split; try done.
      * by right.
      * apply elem_of_cons in Hin as [[= -> ->]|Hin]; [congruence | done].
    + rewrite elem_of_cons, IH. split.
      * intros [->|(h & Hin & Hh)]; [exists h0; split; [left | done]|].
        exists h. split; [by right | done].
      * intros (h & Hin & Hh).
        apply elem_of_cons in Hin as [[= -> ->]|Hin]; [by left | right; eauto].
    + rewrite IH. split; intros (h & Hin & Hh); exists h; split; try done.
      * by right.
      * apply elem_of_cons in Hin as [[= -> ->]|Hin]; [congruence | done].
Qed.

Lemma finished_keys_sublist items : finished_keys items `sublist_of` items.*1.
Proof.
  induction items as [|[k h] items IH]; simpl; [done|].
  destruct (done h) as [e|[]]; by constructor.
Qed.

Lemma finished_keys_NoDup items : NoDup items.*1 -> NoDup (finished_keys items).
Proof.
  intros Hnd. eapply sublist_NoDup; [done | apply finished_keys_sublist].
Qed.

(** What holds of the store before an entry and survives every
    [add_page] holds after the entry. *)
Lemma entry_store_inv (P : Store -> Prop) k h s :
  store_invariant P -> P (store s) -> P (store (exec (update_entry k h) s)).
Proof.
  intros Hinv HP. run. cases; try done;
    match goal with
    | Heq : add_page ?p ?m = _ |- _ =>
        pose proof (Hinv p m HP) as HP'; rewrite Heq in HP'; exact HP'
    end.
Qed.

(** Every entry retrieves its outcome once, however it ends. *)
Lemma entry_retrieves k h s :
  retrievals k (trace (exec (update_entry k h) s))
  = retrievals k (trace s) + 1.
Proof. run. cases; tidy. Qed.

(** A finished entry the loop reaches is processed once, from some
    state that shows of it what the state before the pass showed. *)
Lemma loop_entry (P : Store -> Prop) k h before after : forall dk s r s',
  update_loop (before ++ (k, h) :: after) dk s = (r, s') ->
  NoDup (before ++ (k, h) :: after).*1 ->
  Forall (fun kh => done_returns kh.2) before -> done h = inr true ->
  store_invariant P -> P (store s) ->
  exists s_mid,
    view k s_mid = view k s /\ P (store s_mid) /\
    view k s' = view k (exec (update_entry k h) s_mid).
Proof.
  induction before as [|[k0 h0] before IH];
    intros dk s r s' Hrun Hnd Hall Hd Hinv HP.
  - simpl app in *. rewrite loop_cons, Hd in Hrun.
    exists s. split; [done|]. split; [done|].
    apply (loop_view_other k) in Hrun; [done|].
    simpl in Hnd. apply NoDup_cons in Hnd as [Hk _].
    intros Hin. apply Hk.
    eapply elem_of_sublist; [done | apply finished_keys_sublist].
  - simpl app in *. rewrite loop_cons in Hrun.
    apply Forall_cons in Hall as [Hh Hall].
    simpl in Hnd. apply NoDup_cons in Hnd as [Hk0 Hnd].
    assert (k0 ≠ k) as Hne.
    { intros ->. apply Hk0. rewrite fmap_app. simpl.
      apply elem_of_app. right. left. }
    unfold done_returns in Hh. simpl in Hh.
    destruct (done h0) as [e0|[]]; [done | |].
    + destruct (IH _ _ _ _ Hrun Hnd Hall Hd Hinv
                  (entry_store_inv P k0 h0 s Hinv HP))
        as (s_mid & Hmid & HPmid & Hs').
      exists s_mid. split; [|done].
      rewrite Hmid. by apply entry_view_ne.
    + by apply (IH _ _ _ _ Hrun Hnd Hall Hd Hinv HP).
Qed.

Lemma filter_ext_elem {A} (P Q : A -> Prop)
    `{!forall x, Decision (P x)} `{!forall x, Decision (Q x)} (l : list A) :
  (forall x, x ∈ l -> P x <-> Q x) -> filter P l = filter Q l.
Proof.
  induction l as [|x l IH]; intros Hpq; [done|].
  rewrite !filter_cons.
  destruct (decide (P x)) as [Hp|Hp], (decide (Q x)) as [Hq|Hq].
  - f_equal. apply IH. intros y Hy. apply Hpq. by right.
  - exfalso. apply Hq, Hpq; [left | done].
  - exfalso. apply Hp, Hpq; [left | done].
  - apply IH. intros y Hy. apply Hpq. by right.
Qed.

(** Dropping the finished keys leaves the pending entries. *)
Lemma pending_filter q :
  NoDup q.*1 ->
  filter (fun kh => kh.1 ∉ finished_keys q) q = pending q.
Proof.
  intros Hnd. apply filter_ext_elem. intros [k h] Hin. simpl.
  rewrite finished_keys_elem. unfold is_finished. split.
  - intros Hn. destruct (done h) as [e|[]] eqn:Hd; try done.
    exfalso. apply Hn. eauto.
  - intros Hf (h' & Hin' & Hd').
    apply q_get_elem in Hin, Hin'; try done.
    rewrite Hin in Hin'. injection Hin' as <-. by rewrite Hd' in Hf.
Qed.

Lemma pending_NoDup q : NoDup q.*1 -> NoDup (pending q).*1.
Proof.
  intros Hnd. eapply sublist_NoDup; [done|].
  apply fmap_sublist, sublist_filter.
Qed.

Lemma pending_idle q :
  Forall (fun kh => done_returns kh.2) q ->
  Forall (fun kh => done kh.2 = inr false) (pending q).
Proof.
  intros Hall. apply Forall_forall. intros [k h] Hin.
  apply list_elem_of_filter in Hin as [Hf Hin].
  rewrite Forall_forall in Hall. specialize (Hall _ Hin).
  unfold done_returns, is_finished in *. simpl in *.
  by destruct (done h) as [e|[]].
Qed.

(** ** Lines 47 and 48 *)

Lemma delete_run dk : forall s,
  NoDup (queue s).*1 -> NoDup dk -> dk ⊆ (queue s).*1 ->
  update_delete dk s
  = (Ok tt, set_queue (filter (fun kh => kh.1 ∉ dk) (queue s)) s).
Proof.
  induction dk as [|k dk IH]; intros s Hq Hdk Hsub; simpl.
  - unfold ret. f_equal. destruct s; unfold set_queue; simpl. f_equal.
    symmetry. apply filter_all, Forall_forall. intros x _. apply not_elem_of_nil.
  - apply NoDup_cons in Hdk as [Hk Hdk].
    unfold bind, del_queue.
    destruct (q_get_is_Some k (queue s)) as [h Hh]; [apply Hsub; left|].
    rewrite Hh. rewrite IH; simpl.
    + f_equal. unfold set_queue; simpl. f_equal.
      rewrite q_del_filter by done. rewrite list_filter_filter.
      apply filter_ext_elem. intros [k' h'] _. simpl.
      rewrite not_elem_of_cons. tauto.
    + rewrite q_del_filter by done.
      apply (sublist_NoDup _ (queue s).*1); [done|].
      apply fmap_sublist, sublist_filter.
    + done.
    + intros k' Hk'. rewrite q_del_filter by done.
      assert (k' ∈ (queue s).*1) as Hin by (apply Hsub; by right).
      apply list_elem_of_fmap in Hin as ([k2 h2] & -> & Hin). simpl.
      apply list_elem_of_fmap. exists (k2, h2). split; [done|].
      apply list_elem_of_filter. split; [|done]. simpl. intros ->. done.
Qed.

(** A queue of unfinished entries is passed over. *)
Lemma loop_idle items : forall dk s,
  Forall (fun kh => done kh.2 = inr false) items ->
  update_loop items dk s = (Ok dk, s).
Proof.
  induction items as [|[k h] items IH]; intros dk s Hall; [done|].
  apply Forall_cons in Hall as [Hh Hall]. simpl in Hh.
  rewrite loop_cons, Hh. by apply IH.
Qed.

(** ** The whole pass *)

(** When every finished-check answers, [update] returns and leaves
    the pending entries, in the state the loop produced. *)
Lemma update_completes s :
  wf s -> pollable s ->
  exists s1,
    update_loop (queue s) [] s = (Ok (finished_keys (queue s)), s1) /\
    update s = (Ok tt, set_queue (pending (queue s)) s1).
Proof.
  intros Hwf Hall.
  destruct (loop_returns (queue s) [] s Hall) as [s1 Hs1]. simpl in Hs1.
  exists s1. split; [done|].
  unfold update, bind, gets. rewrite Hs1.
  destruct (loop_frame _ _ _ _ _ Hs1) as (Hq & _ & _).
  rewrite delete_run; rewrite ?Hq.
  - by rewrite pending_filter.
  - done.
  - by apply finished_keys_NoDup.
  - intros k Hk. eapply elem_of_sublist; [done | apply finished_keys_sublist].
Qed.

(** When a finished-check raises, [update] ends with that exception,
    in the state the loop had reached: the queue is as it was. *)
Lemma update_aborts s before k h after e :
  queue s = before ++ (k, h) :: after ->
  Forall (fun kh => done_returns kh.2) before -> done h = inl e ->
  exists s1,
    update_loop (queue s) [] s = (Raise e, s1) /\
    update s = (Raise e, s1) /\ queue s1 = queue s.
Proof.
  intros Hq Hall He.
  destruct (loop_raises before k h after e [] s Hall He) as [s1 Hs1].
  rewrite <- Hq in Hs1. exists s1. split; [done|].
  unfold update, bind, gets. rewrite Hs1. split; [done|].
  by destruct (loop_frame _ _ _ _ _ Hs1) as (Hq' & _ & _).
Qed.

(** ** What a pass shows of one entry *)

Lemma q_get_split k h q :
  NoDup q.*1 -> q_get k q = Some h ->
  exists before after, q = before ++ (k, h) :: after.
Proof.
  intros Hnd Hk. apply q_get_elem in Hk; [|done].
  by apply list_elem_of_split in Hk.
Qed.

Lemma pending_gone k h q :
  NoDup q.*1 -> q_get k q = Some h -> done h = inr true ->
  q_get k (pending q) = None.
Proof.
  intros Hnd Hk Hd. apply q_get_None. intros Hin.
  apply list_elem_of_fmap in Hin as ([k' h'] & -> & Hin). simpl in *.
  apply list_elem_of_filter in Hin as [Hf Hin]. simpl in Hf.
  apply q_get_elem in Hin; [|done]. rewrite Hk in Hin. injection Hin as <-.
  unfold is_finished in Hf. by rewrite Hd in Hf.
Qed.

Lemma pending_kept k h q :
  NoDup q.*1 -> q_get k q = Some h -> done h = inr false ->
  q_get k (pending q) = Some h.
Proof.
  intros Hnd Hk Hd. apply q_get_elem; [by apply pending_NoDup|].
  apply list_elem_of_filter. split.
  - simpl. unfold is_finished. by rewrite Hd.
  - by apply q_get_elem.
Qed.

Lemma not_finished_key k h q :
  NoDup q.*1 -> q_get k q = Some h -> done h ≠ inr true ->
  k ∉ finished_keys q.
Proof.
  intros Hnd Hk Hd (h' & Hin & Hd')%finished_keys_elem.
  apply q_get_elem in Hin; [|done]. congruence.
Qed.

(** A finished entry of a pass that completes: processed once from a
    state that shows of it what the state before the pass showed, and
    gone from the queue. *)
Lemma pass_entry (P : Store -> Prop) s k h :
  wf s -> pollable s -> q_get k (queue s) = Some h -> done h = inr true ->
  store_invariant P -> P (store s) ->
  exists s_mid,
    view k s_mid = view k s /\ P (store s_mid) /\
    update s = (Ok tt, exec update s) /\
    view k (exec update s) = view k (exec (update_entry k h) s_mid) /\
    q_get k (queue (exec update s)) = None.
Proof.
  intros Hwf Hall Hk Hd Hinv HP.
  destruct (update_completes s Hwf Hall) as (s1 & Hloop & Hup).
  destruct (q_get_split k h (queue s) Hwf Hk) as (before & after & Hq).
  rewrite Hq in Hloop. unfold pollable in Hall. rewrite Hq in Hall.
  apply Forall_app in Hall as [Hbefore _].
  unfold wf in Hwf. rewrite Hq in Hwf.
  destruct (loop_entry P k h before after [] s _ s1 Hloop Hwf Hbefore Hd
              Hinv HP) as (s_mid & Hmid & HPmid & Hs1).
  exists s_mid. unfold exec. rewrite Hup. simpl.
  repeat split; try done.
  rewrite <- Hq in *. by eapply pending_gone.
Qed.

(** Whatever way the pass ends, it shows nothing new of a key that is
    not the key of a finished entry, and an entry that is not finished
    keeps its place. *)
Lemma pass_other s k :
  wf s -> k ∉ finished_keys (queue s) -> view k (exec update s) = view k s.
Proof.
  intros Hwf Hk.
  destruct (first_raise (queue s))
    as [Hall | (before & k' & h' & after & e & Hq & Hall & He)].
  - destruct (update_completes s Hwf Hall) as (s1 & Hloop & Hup).
    unfold exec. rewrite Hup. simpl.
    by apply (loop_view_other k) in Hloop.
  - destruct (update_aborts s before k' h' after e Hq Hall He)
      as (s1 & Hloop & Hup & _).
    unfold exec. rewrite Hup. simpl.
    by apply (loop_view_other k) in Hloop.
Qed.

Lemma view_inv k s s' :
  view k s' = view k s ->
  errors s' !! k = errors s !! k /\
  retrievals k (trace s') = retrievals k (trace s) /\
  posted k (trace s') = posted k (trace s).
Proof. unfold view. intros [= -> -> ->]. done. Qed.

(** A finished entry met before the finished-check that raises: it was
    processed, once, although the pass is abandoned. *)
Lemma abort_entry s before k h after e k0 h0 :
  wf s -> queue s = before ++ (k, h) :: after ->
  Forall (fun kh => done_returns kh.2) before -> done h = inl e ->
  (k0, h0) ∈ before -> done h0 = inr true ->
  exists s_mid,
    view k0 s_mid = view k0 s /\
    view k0 (exec update s) = view k0 (exec (update_entry k0 h0) s_mid).
Proof.
  intros Hwf Hq Hall He Hin Hd.
  destruct (update_aborts s before k h after e Hq Hall He)
    as (s1 & Hloop & Hup & _).
  apply list_elem_of_split in Hin as (b1 & b2 & ->).
  rewrite Hq, <- app_assoc in Hloop. simpl in Hloop.
  unfold wf in Hwf. rewrite Hq, <- app_assoc in Hwf. simpl in Hwf.
  apply Forall_app in Hall as [Hb1 _].
  destruct (loop_entry (fun _ => True) k0 h0 b1 _ [] s _ s1 Hloop Hwf Hb1 Hd)
    as (s_mid & Hmid & _ & Hs1); [done | done |].
  exists s_mid. unfold exec at 1. rewrite Hup. done.
Qed.

(** ** The claims about [update] *)

(** C8. An entry whose future answers "not finished" is left as it is
    by a reconciliation pass, however the pass ends: its key is still
    in the queue with the same future, and nothing was filed under it. *)
Theorem C8_unfinished_untouched s k h :
  wf s -> q_get k (queue s) = Some h -> done h = inr false ->
  q_get k (queue (exec update s)) = Some h /\
  errors (exec update s) !! k = errors s !! k.
Proof.
  intros Hwf Hk Hd. split.
  - destruct (first_raise (queue s))
      as [Hall | (before & k' & h' & after & e & Hq & Hall & He)].
    + destruct (update_completes s Hwf Hall) as (s1 & _ & Hup).
      unfold exec. rewrite Hup. simpl. by apply pending_kept.
    + destruct (update_aborts s before k' h' after e Hq Hall He)
        as (s1 & _ & Hup & Hq1).
      unfold exec. rewrite Hup. simpl. by rewrite Hq1.
  - apply (view_inv k). apply pass_other; [done|].
    eapply not_finished_key; [done.. |]. congruence.
Qed.

(** C4, as amended.  A failure met while a finished entry is processed,
    a failure outcome or a defect of the store call, stays with that
    entry.  In any pass, an exception that leaves [update] is one
    raised by a finished-check.  In a pass whose finished-checks all
    answer, [update] returns, and every finished entry, whatever
    happened to the others, had its outcome retrieved once, its record
    handed to the store exactly when it reports success, its failure
    diagnostic filed, and is out of the queue. *)
Theorem C4_failures_confined s :
  wf s ->
  (forall e, outcome update s = Raise e ->
     exists k h, q_get k (queue s) = Some h /\ done h = inl e) /\
  (pollable s ->
     outcome update s = Ok tt /\
     forall k h, q_get k (queue s) = Some h -> done h = inr true ->
       retrievals k (trace (exec update s)) = retrievals k (trace s) + 1 /\
       posted k (trace (exec update s)) = posted k (trace s) ++ handed h /\
       (forall m filed, failure_files h m filed ->
          errors (exec update s) !! k = Some filed) /\
       q_get k (queue (exec update s)) = None).
Proof.
  intros Hwf. split.
  - intros e Hout.
    destruct (first_raise (queue s))
      as [Hall | (before & k' & h' & after & e' & Hq & Hall & He)].
    + destruct (update_completes s Hwf Hall) as (s1 & _ & Hup).
      unfold outcome in Hout. by rewrite Hup in Hout.
    + destruct (update_aborts s before k' h' after e' Hq Hall He)
        as (s1 & _ & Hup & _).
      unfold outcome in Hout. rewrite Hup in Hout. injection Hout as ->.
      exists k', h'. split; [|done]. apply q_get_elem; [done|].
      rewrite Hq. apply elem_of_app. right. left.
  - intros Hall. split.
    + destruct (update_completes s Hwf Hall) as (s1 & _ & Hup).
      unfold outcome. by rewrite Hup.
    + intros k h Hk Hd.
      destruct (pass_entry (fun _ => True) s k h Hwf Hall Hk Hd)
        as (s_mid & Hmid & _ & _ & Hview & Hgone); [done | done |].
      apply view_inv in Hview as (Hve & Hvr & Hvp).
      apply view_inv in Hmid as (Hme & Hmr & Hmp).
      split; [by rewrite Hvr, entry_retrieves, Hmr|].
      split; [by rewrite Hvp, entry_posts, Hmp|].
      split; [|done].
      intros m filed Hfail. rewrite Hve.
      pose proof (entry_failure_files k h s_mid m filed Hfail) as Hf.
      unfold view in Hf. by injection Hf as -> _ _.
Qed.

(** C10. When the finished-check of a tracked object raises, the
    exception leaves [update] and the queue is as it was.  A finished
    entry met earlier in the iteration had its outcome retrieved and,
    if it failed, its diagnostic filed; it is still tracked, and the
    next pass retrieves its outcome again. *)
Theorem C10_done_raises_aborts s before k h after e :
  wf s -> queue s = before ++ (k, h) :: after ->
  Forall (fun kh => done_returns kh.2) before -> done h = inl e ->
  outcome update s = Raise e /\
  queue (exec update s) = queue s /\
  forall k0 h0, (k0, h0) ∈ before -> done h0 = inr true ->
    retrievals k0 (trace (exec update s)) = retrievals k0 (trace s) + 1 /\
    (forall m filed, fails_with h0 m filed ->
       errors (exec update s) !! k0 = Some filed) /\
    q_get k0 (queue (exec update s)) = Some h0 /\
    retrievals k0 (trace (exec update (exec update s)))
    = retrievals k0 (trace s) + 2.
Proof.
  intros Hwf Hq Hall He.
  destruct (update_aborts s before k h after e Hq Hall He)
    as (s1 & _ & Hup & Hq1).
  assert (exec update s = s1) as Hs1 by (unfold exec; by rewrite Hup).
  split; [unfold outcome; by rewrite Hup|].
  split; [by rewrite Hs1|].
  intros k0 h0 Hin Hd.
  destruct (abort_entry s before k h after e k0 h0 Hwf Hq Hall He Hin Hd)
    as (s_mid & Hmid & Hview).
  assert (retrievals k0 (trace (exec update s)) = retrievals k0 (trace s) + 1)
    as Honce.
  { apply view_inv in Hview as (_ & -> & _).
    apply view_inv in Hmid as (_ & <- & _). apply entry_retrieves. }
  split; [done|]. split; [|split].
  - intros m filed Hfail.
    apply view_inv in Hview as (-> & _ & _).
    pose proof (entry_failed k0 h0 s_mid m filed Hfail) as Hf.
    unfold view in Hf. by injection Hf as -> _ _.
  - rewrite Hs1, Hq1. apply q_get_elem; [done|].
    rewrite Hq. apply elem_of_app. by left.
  - assert (wf s1) as Hwf1 by (unfold wf; by rewrite Hq1).
    assert (queue s1 = before ++ (k, h) :: after) as Hq1' by congruence.
    destruct (abort_entry s1 before k h after e k0 h0 Hwf1 Hq1' Hall He Hin Hd)
      as (s_mid' & Hmid' & Hview').
    rewrite Hs1 in *.
    apply view_inv in Hview' as (_ & -> & _).
    apply view_inv in Hmid' as (_ & Hm & _).
    rewrite entry_retrieves, Hm, Honce. lia.
Qed.

(** C5, as amended.  When every finished-check answers, [update]
    returns, a second [update] right after it changes nothing at all,
    and over the two passes the outcome of a finished entry was
    retrieved once and that of an unfinished entry not at all. *)
Theorem C5_second_pass_idle s :
  wf s -> pollable s ->
  outcome update s = Ok tt /\
  update (exec update s) = (Ok tt, exec update s) /\
  forall k h, q_get k (queue s) = Some h ->
    retrievals k (trace (exec update (exec update s)))
    = retrievals k (trace s) + (if is_finished h then 1 else 0).
Proof.
  intros Hwf Hall.
  destruct (update_completes s Hwf Hall) as (s1 & Hloop & Hup).
  assert (exec update s = set_queue (pending (queue s)) s1) as Hs1
    by (unfold exec; by rewrite Hup).
  assert (update (exec update s) = (Ok tt, exec update s)) as Hidle.
  { rewrite Hs1. unfold update, bind, gets. simpl.
    rewrite loop_idle by (by apply pending_idle). done. }
  split; [unfold outcome; by rewrite Hup|]. split; [done|].
  intros k h Hk. unfold exec at 1. rewrite Hidle. simpl.
  destruct (is_finished h) eqn:Hf.
  - assert (done h = inr true) as Hd.
    { unfold is_finished in Hf. by destruct (done h) as [|[]]. }
    destruct (pass_entry (fun _ => True) s k h Hwf Hall Hk Hd)
      as (s_mid & Hmid & _ & _ & Hview & _); [done | done |].
    apply view_inv in Hview as (_ & -> & _).
    apply view_inv in Hmid as (_ & <- & _). apply entry_retrieves.
  - rewrite Nat.add_0_r. apply (view_inv k). apply pass_other; [done|].
    eapply not_finished_key; [done.. |]. intros Hd.
    unfold is_finished in Hf. by rewrite Hd in Hf.
Qed.

(** ** Diagnostics as text *)

Lemma sapp_assoc (a b c : string) : (a +:+ b) +:+ c = a +:+ b +:+ c.
Proof.
  induction a as [|x a IH]; [reflexivity|].
  change (String x ((a +:+ b) +:+ c) = String x (a +:+ b +:+ c)).
  by f_equal.
Qed.

Lemma sapp_nil_r (a : string) : a +:+ "" = a.
Proof.
  induction a as [|x a IH]; [reflexivity|].
  change (String x (a +:+ "") = String x a). by f_equal.
Qed.

(** The diagnostic filed for a failed computation has the backend's
    message inside it. *)
Lemma fails_with_contains h m filed : fails_with h m filed -> contains m filed.
Proof.
  intros [page v a b c _ _ _ _ _ _ | e _];
    unfold contains, error_message, failure_text;
    cbn [exn_tb exn_type exn_str].
  - exists (tb_here 32 +:+ "ValueError" +:+ ":" +:+ "Computation ("
            +:+ py_str a +:+ ", " +:+ py_str b
            +:+ ") did not complete successfully!:" +:+ nl), nl.
    by rewrite !sapp_assoc.
  - exists (exn_tb e +:+ exn_type e +:+ ":"), "".
    by rewrite !sapp_assoc, sapp_nil_r.
Qed.


(** C2, as amended.  In a pass whose finished-checks all answer, a
    finished entry whose computation failed with message [m] leaves
    the queue and has one diagnostic under its key, which a poll then
    shows.  When the failure can be described (the record carries the
    identity fields, or [result()] raised) the diagnostic is the
    traceback, the exception name and text, with [m] inside it; when
    the record lacks an identity field it is the [KeyError] for the
    first one missing. *)
Theorem C2_failure_filed s k h m filed :
  wf s -> pollable s ->
  q_get k (queue s) = Some h -> done h = inr true ->
  failure_files h m filed ->
  outcome update s = Ok tt /\
  outcome get (exec update s)
  = Ok (q_keys (queue (exec update s)), errors (exec update s)) /\
  (k ∉ q_keys (queue (exec update s))) /\
  errors (exec update s) !! k = Some filed /\
  (fails_with h m filed -> contains m filed).
Proof.
  intros Hwf Hall Hk Hd Hfail.
  destruct (pass_entry (fun _ => True) s k h Hwf Hall Hk Hd)
    as (s_mid & Hmid & _ & Hup & Hview & Hgone); [done | done |].
  rewrite (entry_failure_files k h s_mid m filed Hfail) in Hview.
  unfold view in Hview. injection Hview as Hve _ _.
  split; [unfold outcome; by rewrite Hup|]. split; [done|].
  split; [by apply q_get_None|]. split; [done|].
  apply fails_with_contains.
Qed.


(** ** Registration and submission *)

Lemma add_future_run future s :
  add_future future s = (Ok (uuid4 (drawn s)), tracked future s).
Proof. reflexivity. Qed.



Lemma minted_NoDup s n : Inj (=) (=) uuid4 -> NoDup (minted s n).
Proof. intros Hinj. apply NoDup_fmap_2; [done | apply NoDup_seq]. Qed.


Lemma post_loop_cons c program task rest err ids s :
  computers !! program = Some c ->
  post_loop program (task :: rest) err ids s
  = match task !! "internal_error" with
    | Some msg => post_loop program rest (err ++ [msg]) ids s
    | None =>
        match submit c task (backend s) with
        | (inl e, b) => (Raise e, emit (EvSubmit task) (set_backend b s))
        | (inr fut, b) =>
            post_loop program rest err (ids ++ [uuid4 (drawn s)])
              (tracked fut (emit (EvSubmit task) (set_backend b s)))
        end
    end.
Proof.
  intros Hc. simpl. destruct (task !! "internal_error"); [done|].
  unfold bind at 1. unfold get_computer. rewrite Hc. unfold ret.
  unfold bind at 1. unfold call_submit.
  destruct (submit c task (backend s)) as [[e|fut] b]; simpl; [done|].
  unfold bind at 1. by rewrite add_future_run.
Qed.

(** The loop of [post], along the answers of the backend. *)
Lemma post_loop_run c program :
  computers !! program = Some c ->
  forall tasks err ids s,
    let futs := (submit_run c tasks (backend s)).1 in
    let new := minted s (length futs) in
    NoDup (q_keys (queue s) ++ new) ->
    exists s',
      post_loop program tasks err ids s
      = (match (submit_run c tasks (backend s)).2 with
         | None => Ok (err ++ error_markers tasks, ids ++ new)
         | Some e => Raise e
         end, s') /\
      queue s' = queue s ++ zip new futs /\
      errors s' = errors s /\
      ((submit_run c tasks (backend s)).2 = None ->
         submitted (trace s') = submitted (trace s) ++ task_specs tasks /\
         length futs = length (task_specs tasks)).
Proof.
  intros Hc. induction tasks as [|task rest IH]; intros err ids s futs new Hnd.
  - exists s. subst futs new. simpl. rewrite !app_nil_r. done.
  - rewrite (post_loop_cons c) by done. subst futs new.
    unfold error_markers, task_specs in *. simpl in *.
    destruct (task !! "internal_error") as [msg|] eqn:Hm.
    + rewrite filter_cons_False by (by rewrite Hm).
      destruct (IH (err ++ [msg]) ids s Hnd) as (s' & Hrun & Hq & He & Hs).
      exists s'. rewrite Hrun, <- app_assoc. done.
    + rewrite filter_cons_True by done.
      destruct (submit c task (backend s)) as [[e|fut] b] eqn:Hsub; simpl in *.
      { exists (emit (EvSubmit task) (set_backend b s)).
        split; [done|]. split; [by rewrite app_nil_r|]. split; [done|].
        intros [=]. }
      set (s1 := tracked fut (emit (EvSubmit task) (set_backend b s))).
      assert (minted s (S (length (submit_run c rest b).1))
              = uuid4 (drawn s) :: minted s1 (length (submit_run c rest b).1))
        as Hmint by reflexivity.
      rewrite Hmint in *.
      assert (queue s1 = queue s ++ [(uuid4 (drawn s), fut)]) as Hq1.
      { subst s1. simpl. apply q_set_fresh.
        apply NoDup_app in Hnd as (_ & Hdisj & _).
        intros Hin. apply (Hdisj _ Hin). left. }
      destruct (IH err (ids ++ [uuid4 (drawn s)]) s1) as (s' & Hrun & Hq & He & Hs).
      { unfold q_keys in *. rewrite Hq1, fmap_app, <- app_assoc. done. }
      exists s'. change (backend s1) with b in *.
      rewrite Hrun, <- !app_assoc. split; [done|]. split; [|split].
      * rewrite Hq, Hq1, <- app_assoc. done.
      * by rewrite He.
      * intros Hnone. destruct (Hs Hnone) as [Hsub' Hlen].
        rewrite Hsub'. subst s1. simpl. rewrite !submitted_app. simpl.
        rewrite app_nil_r, <- app_assoc. simpl. by rewrite Hlen.
Qed.

(** C6. A batch whose descriptors the backend takes is gone through in
    order: the message of each marker goes to the error list of the
    response, with no submission and no queue entry for it; each
    descriptor is submitted, its future registered under a fresh
    identifier that goes to the identifier list of the response. *)
Theorem C6_batch_in_order s tasks program c futs :
  computers !! program = Some c ->
  submit_run c tasks (backend s) = (futs, None) ->
  NoDup (q_keys (queue s) ++ minted s (length futs)) ->
  exists s',
    post tasks program s
    = (Ok (Response (error_markers tasks) (minted s (length futs)) true), s') /\
    submitted (trace s') = submitted (trace s) ++ task_specs tasks /\
    queue s' = queue s ++ zip (minted s (length futs)) futs /\
    length futs = length (task_specs tasks) /\
    errors s' = errors s.
Proof.
  intros Hc Hrun Hnd.
  destruct (post_loop_run c program Hc tasks [] [] s) as (s' & Hloop & Hq & He & Hs).
  { by rewrite Hrun. }
  rewrite Hrun in *. simpl in *. destruct (Hs eq_refl) as [Hsub Hlen].
  exists s'. unfold post, bind. rewrite Hloop. done.
Qed.

(** C7, as amended.  When [dask.submit] raises for a descriptor of the
    batch, the exception leaves [post]: there is no response, and the
    descriptors taken before it stay submitted and tracked. *)
Theorem C7_submit_failure_propagates s tasks program c futs e :
  computers !! program = Some c ->
  submit_run c tasks (backend s) = (futs, Some e) ->
  NoDup (q_keys (queue s) ++ minted s (length futs)) ->
  exists s',
    post tasks program s = (Raise e, s') /\
    queue s' = queue s ++ zip (minted s (length futs)) futs.
Proof.
  intros Hc Hrun Hnd.
  destruct (post_loop_run c program Hc tasks [] [] s) as (s' & Hloop & Hq & _).
  { by rewrite Hrun. }
  rewrite Hrun in *. simpl in *.
  exists s'. unfold post, bind. rewrite Hloop. done.
Qed.

End Facts.

(** * More properties of the handler *)

Section MoreFacts.
Context `{Collaborators}.
Variable add_wf : record -> Backend -> (exn + list (Z * Z)) * Backend.

Implicit Types (k key : string) (h future : handle) (s : state).
Implicit Types (q items : list (string * handle)) (evs : list event).

Ltac run :=
  unfold update_entry, try_except, update_try, update_except, call_result,
    call_add_page, getitem, log_info, exec, outcome, bind, modify, answer,
    ret, raise in *; simpl in *.

Ltac step :=
  match goal with
  | |- context [match result ?h with _ => _ end] => destruct (result h) eqn:?
  | |- context [match ?d !! ?k with _ => _ end] => destruct (d !! k) eqn:?
  | |- context [negb (truthy ?v)] => destruct (truthy v) eqn:?
  | |- context [add_page ?p ?m] => destruct (add_page p m) as [[?|?] ?] eqn:?
  end; simpl.

Ltac cases := repeat step.

(** ** What a pass leaves alone *)

Lemma q_del_sublist k q : q_del k q `sublist_of` q.
Proof.
  induction q as [|[k' h'] q IH]; simpl; [done|].
  destruct (String.eqb k k'); [by apply sublist_cons | by apply sublist_skip].
Qed.

Lemma delete_frame dk : forall s r s',
  update_delete dk s = (r, s') ->
  errors s' = errors s /\ trace s' = trace s /\ store s' = store s /\
  backend s' = backend s /\ drawn s' = drawn s /\
  queue s' `sublist_of` queue s.
Proof.
  induction dk as [|k dk IH]; intros s r s' Hrun; simpl in Hrun.
  - by injection Hrun as <- <-.
  - unfold bind, del_queue in Hrun.
    destruct (q_get k (queue s)) as [h|].
    + apply IH in Hrun as (-> & -> & -> & -> & -> & Hsub). simpl in *.
      repeat split; try done. etrans; [done | apply q_del_sublist].
    + by injection Hrun as <- <-.
Qed.

Lemma loop_trace_errors items : forall dk s r s',
  update_loop items dk s = (r, s') ->
  forall k, is_Some (errors s !! k) -> is_Some (errors s' !! k).
Proof.
  induction items as [|[k0 h0] items IH]; intros dk s r s' Hrun k Hk.
  - by injection Hrun as <- <-.
  - rewrite loop_cons in Hrun. destruct (done h0) as [e|[]].
    + by injection Hrun as <- <-.
    + apply (IH _ _ _ _ Hrun). clear Hrun. revert Hk. run.
      cases; intros Hk; simpl; try done;
        (destruct (decide (k0 = k)) as [->|Hne];
         [by rewrite lookup_insert_eq | by rewrite lookup_insert_ne]).
    + by apply (IH _ _ _ _ Hrun).
Qed.

(** A pass is the loop followed by deletions that touch nothing but
    the queue. *)
Lemma update_split s :
  exists r s1,
    update_loop (queue s) [] s = (r, s1) /\
    errors (exec update s) = errors s1 /\
    trace (exec update s) = trace s1 /\
    store (exec update s) = store s1 /\
    backend (exec update s) = backend s /\
    drawn (exec update s) = drawn s /\
    queue (exec update s) `sublist_of` queue s.
Proof.
  destruct (update_loop (queue s) [] s) as [r s1] eqn:Hloop.
  exists r, s1. split; [done|].
  destruct (loop_frame _ _ _ _ _ Hloop) as (Hq & Hb & Hd).
  unfold exec, update, bind, gets. rewrite Hloop. destruct r as [dk|e].
  - destruct (update_delete dk s1) as [r' s'] eqn:Hdel. simpl.
    apply delete_frame in Hdel as (-> & -> & -> & -> & -> & Hsub).
    rewrite <- Hq. done.
  - simpl. by rewrite Hq.
Qed.

Lemma pass_only_removes s :
  queue (exec update s) `sublist_of` queue s /\
  backend (exec update s) = backend s /\
  drawn (exec update s) = drawn s /\
  submitted (trace (exec update s)) = submitted (trace s).
Proof.
  destruct (update_split s) as (r & s1 & Hloop & _ & Ht & _ & Hb & Hd & Hq).
  repeat split; try done. rewrite Ht. clear -Hloop.
  revert Hloop. generalize (@nil string). generalize (queue s) at 1.
  intros items. revert s.
  induction items as [|[k h] items IH]; intros s dk Hrun.
  - by injection Hrun as <- <-.
  - rewrite loop_cons in Hrun. destruct (done h) as [e|[]].
    + by injection Hrun as <- <-.
    + rewrite (IH _ _ Hrun). clear. run.
      cases; rewrite ?submitted_app; simpl; rewrite ?app_nil_r; done.
    + by apply (IH _ _ Hrun).
Qed.

(** X1. A pass only removes entries: what it leaves in the queue is a
    sublist of what was there, the same objects in the same order; and
    it neither talks to the backend nor draws an identifier. *)
Theorem update_only_removes s :
  queue (exec update s) `sublist_of` queue s /\
  backend (exec update s) = backend s /\
  drawn (exec update s) = drawn s /\
  submitted (trace (exec update s)) = submitted (trace s).
Proof. apply pass_only_removes. Qed.

(** X2. The errors only grow in a pass: a key that has a diagnostic
    keeps one, and a diagnostic changes or appears only under the key of
    an entry found finished. *)
Theorem update_errors_grow s k :
  (is_Some (errors s !! k) -> is_Some (errors (exec update s) !! k)) /\
  (k ∉ finished_keys (queue s) ->
     errors (exec update s) !! k = errors s !! k).
Proof.
  destruct (update_split s) as (r & s1 & Hloop & -> & _).
  split.
  - by apply (loop_trace_errors _ _ _ _ _ Hloop).
  - intros Hk. apply (view_inv k). by apply (loop_view_other k) in Hloop.
Qed.

(** ** What a pass hands to the store *)

Lemma all_posted_app evs1 evs2 :
  all_posted (evs1 ++ evs2) = all_posted evs1 ++ all_posted evs2.
Proof.
  induction evs1 as [|[] evs1 IH]; simpl; rewrite ?IH; done.
Qed.

(** For a finished entry the store is called when, and only when, the
    record reports success; whether [add_page] then answers or raises
    makes no difference to the call having been made. *)
Lemma entry_hands k h s :
  all_posted (trace (exec (update_entry k h) s))
  = all_posted (trace s) ++ handed h.
Proof.
  unfold handed, reports_success. run.
  cases; rewrite ?all_posted_app; simpl; rewrite ?app_nil_r, <- ?app_assoc;
    done.
Qed.

Lemma loop_hands items : forall dk s r s',
  Forall (fun kh => done_returns kh.2) items ->
  update_loop items dk s = (r, s') ->
  all_posted (trace s') = all_posted (trace s) ++ flat_map due items.
Proof.
  induction items as [|[k h] items IH]; intros dk s r s' Hall Hrun.
  - injection Hrun as <- <-. simpl. by rewrite app_nil_r.
  - apply Forall_cons in Hall as [Hh Hall]. rewrite loop_cons in Hrun.
    unfold done_returns in Hh. simpl in *. unfold due at 1, is_finished.
    simpl. destruct (done h) as [e|[]]; [done | |].
    + rewrite (IH _ _ _ _ Hall Hrun), entry_hands, <- app_assoc. done.
    + by rewrite (IH _ _ _ _ Hall Hrun).
Qed.

Lemma loop_hands_until before k h after e : forall dk s r s',
  Forall (fun kh => done_returns kh.2) before -> done h = inl e ->
  update_loop (before ++ (k, h) :: after) dk s = (r, s') ->
  all_posted (trace s') = all_posted (trace s) ++ flat_map due before.
Proof.
  induction before as [|[k0 h0] before IH]; intros dk s r s' Hall He Hrun.
  - simpl app in Hrun. rewrite loop_cons, He in Hrun.
    injection Hrun as <- <-. simpl. by rewrite app_nil_r.
  - apply Forall_cons in Hall as [Hh Hall]. simpl app in Hrun.
    rewrite loop_cons in Hrun.
    unfold done_returns in Hh. simpl in *. unfold due at 1, is_finished.
    simpl. destruct (done h0) as [e0|[]]; [done | |].
    + rewrite (IH _ _ _ _ Hall He Hrun), entry_hands, <- app_assoc. done.
    + by rewrite (IH _ _ _ _ Hall He Hrun).
Qed.

(** X3. In a pass whose finished-checks all answer, the store is handed
    exactly the records of the finished entries that report success,
    once each, in the order of the queue; nothing of a failed, a
    malformed or an unfinished entry reaches it. *)
Theorem update_posts_in_order s :
  pollable s ->
  all_posted (trace (exec update s))
  = all_posted (trace s) ++ flat_map due (queue s).
Proof.
  intros Hall.
  destruct (update_split s) as (r & s1 & Hloop & _ & -> & _).
  by apply (loop_hands _ _ _ _ _ Hall Hloop).
Qed.

(** ** An object whose finished-check raises *)

Lemma aborted_pass s before k h after e :
  queue s = before ++ (k, h) :: after ->
  Forall (fun kh => done_returns kh.2) before -> done h = inl e ->
  outcome update s = Raise e /\
  queue (exec update s) = queue s /\
  all_posted (trace (exec update s))
  = all_posted (trace s) ++ flat_map due before.
Proof.
  intros Hq Hall He.
  destruct (update_aborts s before k h after e Hq Hall He)
    as (s1 & Hloop & Hup & Hq1).
  unfold outcome, exec. rewrite Hup. simpl. repeat split; try done.
  rewrite Hq in Hloop. by apply (loop_hands_until _ _ _ _ _ _ _ _ _ Hall He Hloop).
Qed.

Lemma passes_blocked s before k h after e n :
  queue s = before ++ (k, h) :: after ->
  Forall (fun kh => done_returns kh.2) before -> done h = inl e ->
  queue (passes n s) = queue s /\
  outcome update (passes n s) = Raise e.
Proof.
  intros Hq Hall He. induction n as [|n [IHq IHo]]; simpl.
  - split; [done|]. by apply (aborted_pass s before k h after e).
  - assert (queue (passes n s) = before ++ (k, h) :: after) as Hqn
      by congruence.
    destruct (aborted_pass _ before k h after e Hqn Hall He) as (Ho & Hq' & _).
    assert (queue (exec update (passes n s)) = before ++ (k, h) :: after)
      as Hqn' by congruence.
    split; [congruence|].
    by apply (aborted_pass _ before k h after e Hqn' Hall He).
Qed.

(** X4. An object whose finished-check raises blocks reconciliation for
    good: as long as the tracked objects answer as they do, every pass
    ends with that exception and the queue never changes, so the
    finished entries around it are never removed. *)
Theorem update_blocked s before k h after e n :
  queue s = before ++ (k, h) :: after ->
  Forall (fun kh => done_returns kh.2) before -> done h = inl e ->
  queue (passes n s) = queue s /\
  outcome update (passes n s) = Raise e.
Proof. apply passes_blocked. Qed.

(** X5. Each such abandoned pass hands the store again the records of
    the finished entries met before the object that raises: after [n]
    passes the store was called [n] times for each of them. *)
Theorem update_posts_again s before k h after e n :
  queue s = before ++ (k, h) :: after ->
  Forall (fun kh => done_returns kh.2) before -> done h = inl e ->
  all_posted (trace (passes n s))
  = all_posted (trace s) ++ mjoin (replicate n (flat_map due before)).
Proof.
  intros Hq Hall He. induction n as [|n IH]; simpl.
  - by rewrite app_nil_r.
  - destruct (passes_blocked s before k h after e n Hq Hall He) as [Hqn _].
    assert (queue (passes n s) = before ++ (k, h) :: after) as Hqn'
      by congruence.
    destruct (aborted_pass _ before k h after e Hqn' Hall He) as (_ & _ & Hp).
    fold (passes n s). rewrite Hp, IH, <- app_assoc. f_equal.
    clear. induction n as [|n IH]; simpl; [by rewrite app_nil_r|].
    by rewrite <- app_assoc, IH.
Qed.

(** ** Polling *)

(** X6. After a pass whose finished-checks all answer, a poll lists
    exactly the keys of the entries that were not finished, in the
    order they were registered. *)
Theorem poll_after_pass s :
  wf s -> pollable s ->
  outcome update s = Ok tt /\
  outcome get (exec update s)
  = Ok ((pending (queue s)).*1, errors (exec update s)) /\
  forall k, k ∈ (pending (queue s)).*1 <->
            exists h, q_get k (queue s) = Some h /\ done h = inr false.
Proof.
  intros Hwf Hall.
  destruct (update_completes s Hwf Hall) as (s1 & _ & Hup).
  split; [unfold outcome; by rewrite Hup|].
  split; [unfold outcome, exec; by rewrite Hup|].
  intros k. rewrite list_elem_of_fmap. split.
  - intros ([k' h] & -> & Hin). simpl.
    pose proof Hin as Hin'.
    apply list_elem_of_filter in Hin as [Hf Hin]. simpl in Hf.
    exists h. split; [by apply q_get_elem|].
    apply pending_idle in Hall. rewrite Forall_forall in Hall.
    apply (Hall _ Hin').
  - intros (h & Hk & Hd). exists (k, h). split; [done|].
    apply list_elem_of_filter. split.
    + simpl. unfold is_finished. by rewrite Hd.
    + by apply q_get_elem.
Qed.

(** ** Submissions: the edges *)

Lemma post_loop_markers program tasks : forall err ids s,
  task_specs tasks = [] ->
  post_loop program tasks err ids s = (Ok (err ++ error_markers tasks, ids), s).
Proof.
  induction tasks as [|task rest IH]; intros err ids s Hnone; simpl.
  - by rewrite app_nil_r.
  - unfold task_specs, error_markers in *. simpl.
    destruct (task !! "internal_error") as [msg|] eqn:Hm.
    + rewrite filter_cons_False in Hnone by (by rewrite Hm).
      rewrite IH by done. by rewrite <- app_assoc.
    + by rewrite filter_cons_True in Hnone.
Qed.

Lemma error_markers_length tasks :
  length (error_markers tasks) + length (task_specs tasks) = length tasks.
Proof.
  unfold error_markers, task_specs.
  induction tasks as [|task rest IH]; simpl; [done|].
  destruct (task !! "internal_error") as [msg|] eqn:Hm; simpl.
  - rewrite filter_cons_False by (by rewrite Hm). f_equal. exact IH.
  - rewrite filter_cons_True by done. simpl. rewrite Nat.add_succ_r.
    f_equal. exact IH.
Qed.

(** X7. A batch without a descriptor, the empty batch included, is
    answered with the messages of its markers and no identifier; the
    program is not even looked up, and nothing changes: no submission,
    no registration, no log line. *)
Theorem post_markers_only s tasks program :
  task_specs tasks = [] ->
  post tasks program s = (Ok (Response (error_markers tasks) [] true), s) /\
  length (error_markers tasks) = length tasks.
Proof.
  intros Hnone. split.
  - unfold post, bind. by rewrite post_loop_markers.
  - pose proof (error_markers_length tasks) as Hlen.
    rewrite Hnone in Hlen. simpl in Hlen. lia.
Qed.

(** X8. With a program that [compute.computers] does not know, a batch
    that has a descriptor ends with a [KeyError] at the first one:
    nothing was submitted or registered, and the messages of the
    markers are lost with the response. *)
Theorem post_unknown_program s tasks program :
  computers !! program = None -> task_specs tasks ≠ [] ->
  exists e, post tasks program s = (Raise e, s) /\ exn_type e = "KeyError".
Proof.
  intros Hc Hsome. exists (key_error program 85). split; [|done].
  unfold post, bind.
  assert (forall err ids,
            post_loop program tasks err ids s
            = (Raise (key_error program 85), s)) as ->; [|done].
  induction tasks as [|task rest IH]; intros err ids; [done|].
  simpl. unfold task_specs in *.
  destruct (task !! "internal_error") as [msg|] eqn:Hm.
  - rewrite filter_cons_False in Hsome by (by rewrite Hm). by apply IH.
  - unfold bind, get_computer. by rewrite Hc.
Qed.

(** What every registration keeps, every submission keeps. *)
Lemma post_loop_inv (I : state -> Prop) program :
  (forall fut s, I s -> I (tracked fut s)) ->
  (forall task b s, I s -> I (emit (EvSubmit task) (set_backend b s))) ->
  forall tasks err ids s r s',
    post_loop program tasks err ids s = (r, s') -> I s -> I s'.
Proof.
  intros Htracked Hsubmit.
  induction tasks as [|task rest IH]; intros err ids s r s' Hrun HI.
  - by injection Hrun as <- <-.
  - simpl in Hrun. destruct (task !! "internal_error") as [msg|].
    { by apply (IH _ _ _ _ _ Hrun). }
    unfold bind at 1 in Hrun. unfold get_computer in Hrun.
    destruct (computers !! program) as [c|]; simpl in Hrun;
      [|by injection Hrun as <- <-].
    unfold bind at 1 in Hrun. unfold call_submit in Hrun.
    destruct (submit c task (backend s)) as [[e|fut] b]; simpl in Hrun;
      [injection Hrun as <- <-; by apply Hsubmit|].
    unfold bind at 1 in Hrun. rewrite add_future_run in Hrun.
    apply (IH _ _ _ _ _ Hrun). by apply Htracked, Hsubmit.
Qed.

Lemma q_set_keys k h q :
  q_keys (q_set k h q)
  = if decide (k ∈ q_keys q) then q_keys q else q_keys q ++ [k].
Proof.
  unfold q_keys. induction q as [|[k' h'] q IH]; [done|].
  simpl q_set. rewrite (fmap_cons fst (k', h')). simpl fst.
  destruct (String.eqb_spec k k') as [->|Hne]; rewrite fmap_cons; simpl fst.
  - rewrite decide_True by left. done.
  - rewrite IH. destruct (decide (k ∈ q.*1)) as [Hin|Hout].
    + rewrite decide_True by (by right). done.
    + rewrite decide_False; [done|].
      intros [?|?]%elem_of_cons; done.
Qed.

(** X9. The submission loop of [post], lines 77 to 90, however it
    ends, makes no [add_page] call, leaves the errors as they were and
    only adds to the queue: the keys tracked before are still there, in
    the same order, in front of the new ones. *)
Theorem post_only_adds s tasks program :
  errors (exec (post tasks program) s) = errors s /\
  all_posted (trace (exec (post tasks program) s)) = all_posted (trace s) /\
  q_keys (queue s) `prefix_of` q_keys (queue (exec (post tasks program) s)).
Proof.
  set (I := fun s' : state =>
              errors s' = errors s /\
              all_posted (trace s') = all_posted (trace s) /\
              q_keys (queue s) `prefix_of` q_keys (queue s')).
  assert (I (exec (post tasks program) s)) as HI; [|done].
  unfold exec, post, bind.
  destruct (post_loop program tasks [] [] s) as [r s'] eqn:Hrun.
  assert (I s') as HI; [|by destruct r].
  apply (post_loop_inv I program) in Hrun; [done | | |].
  - intros fut s0 (He & Hp & Hk). unfold I. simpl.
    rewrite all_posted_app. simpl. rewrite app_nil_r.
    repeat split; try done. rewrite q_set_keys.
    destruct (decide _); [done|]. by apply prefix_app_r.
  - intros task b s0 (He & Hp & Hk). unfold I. simpl.
    rewrite all_posted_app. simpl. rewrite app_nil_r. done.
  - done.
Qed.

(** ** What holds all along the life of a nanny *)

Lemma tracked_keeps fut s :
  wf s /\ keys_drawn s -> wf (tracked fut s) /\ keys_drawn (tracked fut s).
Proof.
  intros [Hwf Hkeys]. unfold wf, keys_drawn, tracked in *. simpl.
  fold (q_keys (q_set (uuid4 (drawn s)) fut (queue s))).
  fold (q_keys (queue s)) in Hwf. rewrite q_set_keys.
  destruct (decide (uuid4 (drawn s) ∈ q_keys (queue s))) as [Hin|Hout].
  - split; [done|]. intros k Hk.
    destruct (Hkeys k Hk) as (i & Hi & ->). exists i. split; [lia | done].
  - split.
    + apply NoDup_app. split; [done|]. split; [|apply NoDup_singleton].
      intros k Hk ->%list_elem_of_singleton. done.
    + intros k [Hk | ->%list_elem_of_singleton]%elem_of_app.
      * destruct (Hkeys k Hk) as (i & Hi & ->). exists i. split; [lia | done].
      * exists (drawn s). split; [lia | done].
Qed.

Lemma FireworksScheduler_post_loop_inv (I : state -> Prop) :
  (forall fws_id s, I s -> I (tracked (launch_object fws_id) s)) ->
  (forall task b s, I s -> I (emit (EvSubmit task) (set_backend b s))) ->
  forall tasks err ids s r s',
    FireworksScheduler_post_loop add_wf tasks err ids s = (r, s') ->
    I s -> I s'.
Proof.
  intros Htracked Hsubmit.
  induction tasks as [|task rest IH]; intros err ids s r s' Hrun HI.
  - by injection Hrun as <- <-.
  - simpl in Hrun. destruct (task !! "internal_error") as [msg|].
    { by apply (IH _ _ _ _ _ Hrun). }
    unfold bind at 1 in Hrun. unfold call_add_wf in Hrun.
    destruct (add_wf task (backend s)) as [[e|launches] b]; simpl in Hrun;
      [injection Hrun as <- <-; by apply Hsubmit|].
    unfold bind at 1 in Hrun. unfold first_value in Hrun.
    destruct (launches.*2) as [|fws_id others]; simpl in Hrun;
      [injection Hrun as <- <-; by apply Hsubmit|].
    unfold bind at 1 in Hrun. rewrite add_future_run in Hrun.
    apply (IH _ _ _ _ _ Hrun). by apply Htracked, Hsubmit.
Qed.

Lemma life_wf s : reached add_wf s -> wf s /\ keys_drawn s.
Proof.
  induction 1 as [qs ms n evs | s fut _ IH | s _ IH | s tasks program _ IH
                 | s tasks _ IH | s _ IH | s q m b n _ IH Hq Hn].
  - split; [apply NoDup_nil_2 | intros k Hk; inversion Hk].
  - unfold exec. rewrite add_future_run. by apply tracked_keeps.
  - destruct IH as [Hwf Hkeys].
    destruct (pass_only_removes s) as (Hsub & _ & Hd & _).
    assert (q_keys (queue (exec update s)) `sublist_of` q_keys (queue s))
      as Hsub' by (by apply fmap_sublist).
    split.
    + by apply (sublist_NoDup _ _ Hwf).
    + intros k Hk. rewrite Hd. apply Hkeys.
      by apply (elem_of_sublist _ _ _ Hk).
  - unfold exec, post, bind.
    destruct (post_loop program tasks [] [] s) as [r s'] eqn:Hrun.
    assert (wf s' /\ keys_drawn s') as HI; [|by destruct r].
    apply (post_loop_inv (fun s => wf s /\ keys_drawn s) program) in Hrun;
      [done | | done | done].
    intros fut s0. apply tracked_keeps.
  - unfold exec, FireworksScheduler_post, bind.
    destruct (FireworksScheduler_post_loop add_wf tasks [] [] s)
      as [r s'] eqn:Hrun.
    assert (wf s' /\ keys_drawn s') as HI; [|by destruct r].
    apply (FireworksScheduler_post_loop_inv (fun s => wf s /\ keys_drawn s))
      in Hrun; [done | | done | done].
    intros fws_id s0. apply tracked_keeps.
  - done.
  - destruct IH as [Hwf Hkeys]. unfold wf, keys_drawn, q_keys in *. simpl.
    rewrite Hq. split; [done|]. intros k Hk.
    destruct (Hkeys k Hk) as (i & Hi & ->). exists i. split; [lia | done].
Qed.

(** X10. In every state a nanny goes through, no key is twice in the
    queue and every key is an identifier that was drawn: the
    well-formedness the properties of a pass rest on is kept by
    [__init__], [add_future], [update], both [post] and [get]. *)
Theorem reached_wf s : reached add_wf s -> wf s /\ keys_drawn s.
Proof. apply life_wf. Qed.

Lemma life_fresh s n :
  reached add_wf s -> Inj (=) (=) uuid4 ->
  NoDup (q_keys (queue s) ++ minted s n).
Proof.
  intros [Hwf Hkeys]%life_wf Hinj.
  apply NoDup_app. split; [done|]. split; [|by apply minted_NoDup].
  intros k Hk Hnew. destruct (Hkeys k Hk) as (i & Hi & ->).
  unfold minted in Hnew. apply list_elem_of_fmap in Hnew as (j & Heq & Hj).
  apply Hinj in Heq as ->. apply elem_of_seq in Hj. lia.
Qed.

(** X11. When the identifier source does not repeat itself, the
    identifiers a nanny is about to draw are new in every state it goes
    through: distinct from each other and from every key it tracks. *)
Theorem reached_fresh s n :
  reached add_wf s -> Inj (=) (=) uuid4 ->
  NoDup (q_keys (queue s) ++ minted s n).
Proof. apply life_fresh. Qed.

(** X12. In any state a nanny goes through, when the identifier source
    does not repeat itself and the backend takes the descriptors of a
    batch, [post] answers with the messages of the markers and one new
    identifier per descriptor, and a poll right after it lists the keys
    tracked before followed by these identifiers, each leading to the
    future of its descriptor, with the errors as they were. *)
Theorem submit_then_poll s tasks program c futs :
  reached add_wf s -> Inj (=) (=) uuid4 ->
  computers !! program = Some c ->
  submit_run c tasks (backend s) = (futs, None) ->
  exists resp s',
    post tasks program s = (Ok resp, s') /\
    r_error resp = error_markers tasks /\
    length (r_nanny_id resp) = length (task_specs tasks) /\
    NoDup (q_keys (queue s) ++ r_nanny_id resp) /\
    outcome get s' = Ok (q_keys (queue s) ++ r_nanny_id resp, errors s) /\
    forall i uid fut,
      r_nanny_id resp !! i = Some uid -> futs !! i = Some fut ->
      q_get uid (queue s') = Some fut.
Proof.
  intros Hreach Hinj Hc Hrun.
  pose proof (life_fresh s (length futs) Hreach Hinj) as Hnd.
  destruct (post_loop_run c program Hc tasks [] [] s)
    as (s' & Hloop & Hq & He & Hs).
  { by rewrite Hrun. }
  rewrite Hrun in *. simpl in *. destruct (Hs eq_refl) as [_ Hlen].
  assert (length (minted s (length futs)) = length futs) as Hnew.
  { unfold minted. by rewrite length_fmap, length_seq. }
  assert (q_keys (queue s') = q_keys (queue s) ++ minted s (length futs))
    as Hkeys.
  { unfold q_keys. rewrite Hq, fmap_app, fst_zip; [done | lia]. }
  exists (Response (error_markers tasks) (minted s (length futs)) true), s'.
  split; [unfold post, bind; by rewrite Hloop|]. simpl.
  split; [done|]. split; [congruence|]. split; [done|].
  split; [unfold outcome; simpl; by rewrite Hkeys, He|].
  intros i uid fut Hi Hf. apply q_get_elem.
  - fold (q_keys (queue s')). by rewrite Hkeys.
  - rewrite Hq. apply elem_of_app. right.
    apply list_elem_of_lookup. exists i.
    apply lookup_zip_with_Some. eauto.
Qed.

(** ** The Fireworks scheduler *)

Lemma q_set_elem k h q (x : string * handle) :
  x ∈ q_set k h q -> x ∈ q \/ x = (k, h).
Proof.
  induction q as [|[k' h'] q IH]; simpl.
  - intros ->%list_elem_of_singleton. by right.
  - destruct (String.eqb k k').
    + intros [->|Hin]%elem_of_cons; [by right | left; by right].
    + intros [->|Hin]%elem_of_cons; [left; left|].
      destruct (IH Hin) as [?|?]; [left; by right | by right].
Qed.

Lemma q_set_has k h q : (k, h) ∈ q_set k h q.
Proof.
  induction q as [|[k' h'] q IH]; simpl; [left|].
  destruct (String.eqb k k'); [left | by right].
Qed.

Lemma q_set_keeps k h q k0 h0 :
  (k0, h0) ∈ q -> (k0, h0) ∈ q_set k h q \/ k0 = k.
Proof.
  induction q as [|[k' h'] q IH]; simpl; [intros Hin; inversion Hin|].
  destruct (String.eqb_spec k k') as [->|Hne].
  - intros [[= -> ->]|Hin]%elem_of_cons; [by right | left; by right].
  - intros [[= -> ->]|Hin]%elem_of_cons; [left; left|].
    destruct (IH Hin) as [?|?]; [left; by right | by right].
Qed.

Lemma holds_launch_kept fws_id s :
  holds_launch s -> holds_launch (tracked (launch_object fws_id) s).
Proof.
  intros (k & z & Hin). unfold holds_launch. simpl.
  destruct (q_set_keeps (uuid4 (drawn s)) (launch_object fws_id) _ _ _ Hin)
    as [Hin' | ->].
  - by exists k, z.
  - exists (uuid4 (drawn s)), fws_id. apply q_set_has.
Qed.

Lemma FireworksScheduler_registers tasks : forall err ids s lists s',
  FireworksScheduler_post_loop add_wf tasks err ids s = (Ok lists, s') ->
  lists.2 = ids \/ holds_launch s'.
Proof.
  induction tasks as [|task rest IH]; intros err ids s lists s' Hrun.
  - injection Hrun as <- <-. by left.
  - simpl in Hrun. destruct (task !! "internal_error") as [msg|].
    { by apply (IH _ _ _ _ _ Hrun). }
    unfold bind at 1 in Hrun. unfold call_add_wf in Hrun.
    destruct (add_wf task (backend s)) as [[e|launches] b]; simpl in Hrun;
      [done|].
    unfold bind at 1 in Hrun. unfold first_value in Hrun.
    destruct (launches.*2) as [|fws_id others]; simpl in Hrun; [done|].
    unfold bind at 1 in Hrun. rewrite add_future_run in Hrun.
    right.
    apply (FireworksScheduler_post_loop_inv holds_launch) in Hrun; [done|..].
    + intros z s0. apply holds_launch_kept.
    + intros t b0 s0 (k & z & Hin). by exists k, z.
    + exists (uuid4 (drawn s)), fws_id. apply q_set_has.
Qed.

(** X13. What [FireworksScheduler.post] registers with the nanny is the
    integer launch identifier, which has no [done]: once it has
    answered with an identifier, on a queue whose objects answered
    until then, every pass ends with [AttributeError] and the queue
    never changes again. *)
Theorem fireworks_blocks_update s tasks resp s' n :
  pollable s ->
  FireworksScheduler_post add_wf tasks s = (Ok resp, s') ->
  r_nanny_id resp ≠ [] ->
  outcome update (passes n s')
  = Raise (Exn "AttributeError" "'int' object has no attribute 'done'"
               (tb_here 28)) /\
  queue (passes n s') = queue s'.
Proof.
  intros Hall Hpost Hids.
  set (attr := Exn "AttributeError" "'int' object has no attribute 'done'"
                   (tb_here 28)).
  unfold FireworksScheduler_post, bind in Hpost.
  destruct (FireworksScheduler_post_loop add_wf tasks [] [] s)
    as [[lists|e] s1] eqn:Hrun; [|done].
  injection Hpost as <- <-. simpl in Hids.
  assert (forall kh, kh ∈ queue s1 ->
            done_returns kh.2 \/ done kh.2 = inl attr) as Hkinds.
  { refine (FireworksScheduler_post_loop_inv
              (fun s0 => forall kh, kh ∈ queue s0 ->
                           done_returns kh.2 \/ done kh.2 = inl attr)
              _ _ tasks [] [] s _ s1 Hrun _).
    - intros z s0 Hs0 kh [Hin | ->]%q_set_elem; [by apply Hs0 | by right].
    - done.
    - intros kh Hin. left. unfold pollable in Hall.
      rewrite Forall_forall in Hall. by apply Hall. }
  destruct (FireworksScheduler_registers _ _ _ _ _ _ Hrun)
    as [Hsame | (k & z & Hlaunch)]; [done|].
  destruct (first_raise (queue s1))
    as [Hanswer | (before & k' & h' & after & e & Hq & Hbefore & He)].
  - rewrite Forall_forall in Hanswer. by apply Hanswer in Hlaunch.
  - assert (e = attr) as ->.
    { destruct (Hkinds (k', h')) as [Hr | Hr].
      - rewrite Hq. apply elem_of_app. right. left.
      - unfold done_returns in Hr. simpl in Hr. by rewrite He in Hr.
      - simpl in Hr. congruence. }
    destruct (passes_blocked s1 before k' h' after attr n Hq Hbefore He).
    done.
Qed.

End MoreFacts.

(** * The properties at work on the deployment [Demo] *)

Import Demo.

Ltac ev := vm_compute; reflexivity.
Ltac nodup := apply (bool_decide_unpack _); vm_compute; exact I.
Ltac all_answer := repeat (constructor; [exact I|]); constructor.






Lemma diverged_fails :
  fails_with diverged "solver diverged"
    (error_message
       (Exn "ValueError"
          (failure_text (VStr "a1b2") (VStr "SCF/sto-3g")
             (VStr "solver diverged"))
          (tb_here 32))).
Proof.
  apply (fails_record diverged (page false "solver diverged") (VBool false)
           (VStr "a1b2") (VStr "SCF/sto-3g") (VStr "solver diverged"));
    ev.
Qed.

Lemma demo_uuid_inj : Inj (=) (=) demo_uuid.
Proof.
  intros x y Heq. unfold demo_uuid in Heq.
  apply (inj (String.append "id")) in Heq. by apply (inj pretty) in Heq.
Qed.


(** C2 to the letter fails on the message: what is filed is the
    traceback and the [ValueError] text around "solver diverged". *)
Lemma C2_message_counterexample : ~ failure_files_exactly s_diverged "k1".
Proof.
  intros Hc.
  destruct (Hc diverged _ _ eq_refl eq_refl diverged_fails)
    as (keys & errs & Hget & _ & He).
  vm_compute in Hget. injection Hget as <- <-.
  vm_compute in He. discriminate.
Qed.


(** C5 to the letter fails when a finished-check raises: the second
    pass retrieves the outcome of the entry under "k1" again. *)
Lemma C5_twice_counterexample : ~ consumed_once s_launch.
Proof.
  intros (_ & _ & Hr).
  specialize (Hr "k1" diverged eq_refl eq_refl).
  vm_compute in Hr. discriminate.
Qed.

(** C7 to the letter fails when the client closes after one
    submission: [post] ends with the exception of [dask.submit]. *)
Lemma C7_closed_counterexample :
  ~ submit_failure_is_reported s_closing [spec "ref1"; spec "ref2"] "psi4".
Proof.
  intros Hc.
  destruct (Hc psi4 [running] closed eq_refl eq_refl) as (resp & Hout & _).
  vm_compute in Hout. discriminate.
Qed.

(** C4 to the letter fails when a finished-check raises: the entry
    under "k1" failed, and the finished entry under "k2" is still in
    the queue after the pass. *)
Lemma C4_raising_check_counterexample : ~ failure_is_confined s_three.
Proof.
  intros Hc.
  assert ("k2" ≠ "k1") as Hne by discriminate.
  specialize (Hc "k1" diverged _ _ eq_refl eq_refl diverged_fails
                "k2" succeeded Hne eq_refl eq_refl).
  vm_compute in Hc. discriminate.
Qed.


(** ** The theorems at concrete inputs *)


Lemma C2_witness :
  wf s_bare /\ pollable s_bare /\
  q_get "k1" (queue s_bare) = Some bare /\ done bare = inr true /\
  failure_files bare "solver diverged"
    (error_message (key_error "molecule_hash" 33)) /\
  outcome update s_bare = Ok tt /\
  ("k1" ∉ q_keys (queue (exec update s_bare))) /\
  errors (exec update s_bare) !! "k1"
  = Some (error_message (key_error "molecule_hash" 33)).
Proof.
  assert (wf s_bare) as Hwf by nodup.
  assert (pollable s_bare) as Hall by all_answer.
  assert (failure_files bare "solver diverged"
            (error_message (key_error "molecule_hash" 33))) as Hfail.
  { apply (failure_unidentified bare
             {[ "success" := VBool false; "error" := VStr "solver diverged" ]}
             (VBool false) (VStr "solver diverged") "molecule_hash"); ev. }
  repeat (split; [first [done | reflexivity]|]).
  destruct (C2_failure_filed s_bare "k1" bare _ _ Hwf Hall
              eq_refl eq_refl Hfail) as (Ho & _ & Hk & He & _).
  done.
Defined.


Lemma C4_witness :
  wf s_mixed /\ pollable s_mixed /\
  outcome update s_mixed = Ok tt /\
  posted "k1" (trace (exec update s_mixed)) = [page true ""] /\
  posted "k3" (trace (exec update s_mixed)) = [] /\
  q_get "k1" (queue (exec update s_mixed)) = None /\
  q_get "k3" (queue (exec update s_mixed)) = None.
Proof.
  assert (wf s_mixed) as Hwf by nodup.
  assert (pollable s_mixed) as Hall by all_answer.
  split; [done|]. split; [done|].
  destruct (C4_failures_confined s_mixed Hwf) as [_ Hpass].
  destruct (Hpass Hall) as [Ho Hdone].
  destruct (Hdone "k1" succeeded eq_refl eq_refl) as (_ & Hp1 & _ & Hg1).
  destruct (Hdone "k3" diverged eq_refl eq_refl) as (_ & Hp3 & _ & Hg3).
  split; [done|]. split; [exact Hp1|]. split; [exact Hp3|]. done.
Defined.

Lemma C5_witness :
  wf s_mixed /\ pollable s_mixed /\
  outcome update s_mixed = Ok tt /\
  update (exec update s_mixed) = (Ok tt, exec update s_mixed) /\
  retrievals "k3" (trace (exec update (exec update s_mixed)))
  = retrievals "k3" (trace s_mixed) + 1.
Proof.
  assert (wf s_mixed) as Hwf by nodup.
  assert (pollable s_mixed) as Hall by all_answer.
  split; [done|]. split; [done|].
  destruct (C5_second_pass_idle s_mixed Hwf Hall) as (Ho & Hidle & Hr).
  split; [done|]. split; [done|].
  apply (Hr "k3" diverged eq_refl).
Defined.

Lemma C6_witness :
  computers !! "psi4" = Some psi4 /\
  submit_run psi4 batch3 (backend s_empty) = ([running; running], None) /\
  NoDup (q_keys (queue s_empty) ++ minted s_empty 2) /\
  exists s',
    post batch3 "psi4" s_empty
    = (Ok (Response [VStr "unknown reference: bad-ref"] ["id0"; "id1"] true),
       s') /\
    submitted (trace s') = [spec "ref1"; spec "ref3"] /\
    queue s' = [("id0", running); ("id1", running)].
Proof.
  assert (NoDup (q_keys (queue s_empty) ++ minted s_empty 2)) as Hnd by nodup.
  split; [reflexivity|]. split; [reflexivity|]. split; [done|].
  destruct (C6_batch_in_order s_empty batch3 "psi4" psi4 [running; running]
              eq_refl eq_refl Hnd) as (s' & Hpost & Hsub & Hq & _).
  exists s'. split; [exact Hpost|]. split; [exact Hsub | exact Hq].
Defined.

Lemma C7_witness :
  computers !! "psi4" = Some psi4 /\
  submit_run psi4 [spec "ref1"; spec "ref2"] (backend s_closing)
  = ([running], Some closed) /\
  NoDup (q_keys (queue s_closing) ++ minted s_closing 1) /\
  exists s',
    post [spec "ref1"; spec "ref2"] "psi4" s_closing = (Raise closed, s') /\
    queue s' = [("id0", running)].
Proof.
  assert (NoDup (q_keys (queue s_closing) ++ minted s_closing 1)) as Hnd
    by nodup.
  split; [reflexivity|]. split; [reflexivity|]. split; [done|].
  apply (C7_submit_failure_propagates s_closing [spec "ref1"; spec "ref2"]
           "psi4" psi4 [running] closed eq_refl eq_refl Hnd).
Defined.

Lemma C8_witness :
  wf s_mixed /\ q_get "k2" (queue s_mixed) = Some running /\
  done running = inr false /\
  q_get "k2" (queue (exec update s_mixed)) = Some running /\
  errors (exec update s_mixed) !! "k2" = errors s_mixed !! "k2".
Proof.
  assert (wf s_mixed) as Hwf by nodup.
  split; [done|]. split; [reflexivity|]. split; [reflexivity|].
  apply (C8_unfinished_untouched s_mixed "k2" running Hwf eq_refl eq_refl).
Defined.


Lemma C10_witness :
  wf s_launch /\
  queue s_launch = [("k1", diverged)] ++ ("k2", launch_id) :: [] /\
  Forall (fun kh => done_returns kh.2) [("k1", diverged)] /\
  outcome update s_launch
  = Raise (Exn "AttributeError" "'int' object has no attribute 'done'"
               "  File dask_handler.py, line 28") /\
  queue (exec update s_launch) = queue s_launch /\
  retrievals "k1" (trace (exec update s_launch)) = 1 /\
  is_Some (errors (exec update s_launch) !! "k1") /\
  retrievals "k1" (trace (exec update (exec update s_launch))) = 2.
Proof.
  assert (wf s_launch) as Hwf by nodup.
  assert (Forall (fun kh => done_returns kh.2) [("k1", diverged)]) as Hall
    by all_answer.
  split; [done|]. split; [reflexivity|]. split; [done|].
  destruct (C10_done_raises_aborts s_launch [("k1", diverged)] "k2" launch_id
              [] _ Hwf eq_refl Hall eq_refl) as (Ho & Hq & Hearlier).
  split; [exact Ho|]. split; [exact Hq|].
  destruct (Hearlier "k1" diverged) as (Hr & Hf & _ & Hr2);
    [apply list_elem_of_singleton; reflexivity | reflexivity |].
  split; [exact Hr|]. split; [|exact Hr2].
  rewrite (Hf _ _ diverged_fails). by eexists.
Defined.

(** ** The further properties at concrete inputs *)

Lemma update_errors_grow_witness :
  ("k2" ∉ finished_keys (queue s_mixed)) /\
  errors (exec update s_mixed) !! "k2" = errors s_mixed !! "k2".
Proof.
  assert ("k2" ∉ finished_keys (queue s_mixed)) as Hk.
  { apply (bool_decide_unpack _). vm_compute. exact I. }
  split; [done|].
  destruct (update_errors_grow s_mixed "k2") as [_ Hsame]. by apply Hsame.
Defined.

Lemma update_posts_in_order_witness :
  pollable s_mixed /\
  all_posted (trace (exec update s_mixed)) = [page true ""].
Proof.
  assert (pollable s_mixed) as Hall by all_answer.
  split; [done|]. exact (update_posts_in_order s_mixed Hall).
Defined.

Lemma update_blocked_witness :
  queue s_launch = [("k1", diverged)] ++ ("k2", launch_id) :: [] /\
  Forall (fun kh => done_returns kh.2) [("k1", diverged)] /\
  queue (passes 3 s_launch) = queue s_launch /\
  outcome update (passes 3 s_launch)
  = Raise (Exn "AttributeError" "'int' object has no attribute 'done'"
               "  File dask_handler.py, line 28").
Proof.
  assert (Forall (fun kh => done_returns kh.2) [("k1", diverged)]) as Hall
    by all_answer.
  split; [reflexivity|]. split; [done|].
  exact (update_blocked s_launch [("k1", diverged)] "k2" launch_id [] _ 3
           eq_refl Hall eq_refl).
Defined.

Lemma update_posts_again_witness :
  queue s_stuck = [("k1", succeeded)] ++ ("k2", launch_id) :: [] /\
  Forall (fun kh => done_returns kh.2) [("k1", succeeded)] /\
  all_posted (trace (passes 2 s_stuck)) = [page true ""; page true ""].
Proof.
  assert (Forall (fun kh => done_returns kh.2) [("k1", succeeded)]) as Hall
    by all_answer.
  split; [reflexivity|]. split; [done|].
  exact (update_posts_again s_stuck [("k1", succeeded)] "k2" launch_id [] _ 2
           eq_refl Hall eq_refl).
Defined.

Lemma poll_after_pass_witness :
  wf s_mixed /\ pollable s_mixed /\
  outcome update s_mixed = Ok tt /\
  outcome get (exec update s_mixed) = Ok (["k2"], errors (exec update s_mixed)).
Proof.
  assert (wf s_mixed) as Hwf by nodup.
  assert (pollable s_mixed) as Hall by all_answer.
  split; [done|]. split; [done|].
  destruct (poll_after_pass s_mixed Hwf Hall) as (Ho & Hget & _).
  split; [exact Ho | exact Hget].
Defined.

Lemma post_markers_only_witness :
  task_specs [marker "unknown method"; marker "bad-ref"] = [] /\
  post [marker "unknown method"; marker "bad-ref"] "nwchem" s_empty
  = (Ok (Response [VStr "unknown method"; VStr "bad-ref"] [] true), s_empty).
Proof.
  assert (task_specs [marker "unknown method"; marker "bad-ref"] = [])
    as Hnone by ev.
  split; [done|].
  destruct (post_markers_only s_empty _ "nwchem" Hnone) as [Hpost _].
  exact Hpost.
Defined.

Lemma post_unknown_program_witness :
  computers !! "nwchem" = None /\ task_specs batch3 ≠ [] /\
  exists e,
    post batch3 "nwchem" s_empty = (Raise e, s_empty) /\
    exn_type e = "KeyError".
Proof.
  assert (task_specs batch3 ≠ []) as Hsome.
  { intros Heq. vm_compute in Heq. discriminate. }
  split; [reflexivity|]. split; [done|].
  exact (post_unknown_program s_empty batch3 "nwchem" eq_refl Hsome).
Defined.

Lemma s_later_reached : reached demo_add_wf s_later.
Proof. apply reach_update, reach_post, reach_init. Qed.

Lemma reachable_wf_witness :
  reached demo_add_wf s_later /\ wf s_later /\ keys_drawn s_later.
Proof.
  split; [apply s_later_reached|].
  exact (reached_wf demo_add_wf s_later s_later_reached).
Defined.

Lemma reachable_fresh_witness :
  reached demo_add_wf s_later /\ Inj (=) (=) demo_uuid /\
  NoDup (q_keys (queue s_later) ++ minted s_later 2).
Proof.
  split; [apply s_later_reached|]. split; [apply demo_uuid_inj|].
  exact (reached_fresh demo_add_wf s_later 2 s_later_reached
           demo_uuid_inj).
Defined.

Lemma submit_then_poll_witness :
  reached demo_add_wf s_new /\ Inj (=) (=) demo_uuid /\
  computers !! "psi4" = Some psi4 /\
  submit_run psi4 batch3 (backend s_new) = ([running; running], None) /\
  exists resp s',
    post batch3 "psi4" s_new = (Ok resp, s') /\
    r_error resp = [VStr "unknown reference: bad-ref"] /\
    length (r_nanny_id resp) = 2 /\
    outcome get s' = Ok (r_nanny_id resp, ∅).
Proof.
  assert (reached demo_add_wf s_new) as Hreach by apply reach_init.
  split; [done|]. split; [apply demo_uuid_inj|].
  split; [reflexivity|]. split; [reflexivity|].
  destruct (@submit_then_poll deployment demo_add_wf s_new batch3 "psi4" psi4
              [running; running] Hreach demo_uuid_inj eq_refl eq_refl)
    as (resp & s' & Hpost & Herr & Hlen & _ & Hget & _).
  exists resp, s'. split; [exact Hpost|]. split; [exact Herr|].
  split; [exact Hlen | exact Hget].
Defined.

Lemma fireworks_blocks_update_witness :
  pollable s_empty /\
  (exists resp s',
     FireworksScheduler_post demo_add_wf batch3 s_empty = (Ok resp, s') /\
     r_nanny_id resp = ["id0"; "id1"] /\
     outcome update (passes 2 s')
     = Raise (Exn "AttributeError" "'int' object has no attribute 'done'"
                  (tb_here 28)) /\
     queue (passes 2 s') = queue s').
Proof.
  assert (pollable s_empty) as Hall by constructor.
  split; [done|].
  destruct (@FireworksScheduler_post deployment demo_add_wf batch3 s_empty)
    as [r s'] eqn:Hpost.
  assert (r = Ok (Response [VStr "unknown reference: bad-ref"]
                    ["id0"; "id1"] true)) as ->.
  { apply (f_equal fst) in Hpost. simpl in Hpost. rewrite <- Hpost. ev. }
  eexists _, s'. split; [reflexivity|]. split; [reflexivity|].
  apply (@fireworks_blocks_update deployment demo_add_wf s_empty batch3 _ s' 2 Hall Hpost).
  discriminate.
Defined.
